(** * Bulk-load extensions of the matrix-backed graph store

    A shallow embedding of [src/serializers/graph_extensions.c]: the
    routines a snapshot-restore driver calls to repopulate the entity
    store and the topology matrices ([Serializer_Graph_SetNode],
    [Serializer_Graph_SetNodeLabels], [Serializer_Graph_SetEdge] with its
    two connection routines, the tombstoning calls and the deleted-id
    accessors), followed by the properties of the load protocol.

    C state is threaded explicitly: a [World] holds the graph object, the
    process heap that backs the multi-edge arrays, and the two sources of
    environment nondeterminism (whether a growing [realloc] moves the
    block, whether a call into the sparse-matrix library reports
    failure).  A failed [ASSERT], an allocation that cannot be served and
    a use of an invalid pointer or index all end the run: they are the
    [Fatal] outcome. *)

From stdpp Require Import numbers list fin_maps gmap.

Local Open Scope Z_scope.

(** ** Outcomes and the state-and-abort monad *)

Inductive outcome (A : Type) : Type :=
  | Done (a : A)
  | Fatal.
Arguments Done {A} a.
Arguments Fatal {A}.

(** ** Scalars *)

(** [NodeID], [EdgeID] and [GrB_Index] are [uint64_t]; [LabelID] and the
    relation index are [int].  All are carried as [Z]. *)
Definition UINT64_MOD : Z := 2 ^ 64.

(** Modelled from the spec: the tag macros of the graph header, which is
    not part of the sources at hand.  A tagged cell is a single matrix
    scalar whose high bit distinguishes one edge id from a reference to
    many edge ids. *)
Definition MSB_MASK : Z := Z.shiftl 1 63.
(** Modelled from the spec: the complement of the tag bit, as a 64-bit
    word. *)
Definition MSB_MASK_CMP : Z := Z.lnot MSB_MASK mod UINT64_MOD.
(** Modelled from the spec: set the tag bit. *)
Definition SET_MSB (meid : Z) : Z := Z.lor meid MSB_MASK.
(** Modelled from the spec: the remaining bits of a tagged scalar. *)
Definition CLEAR_MSB (meid : Z) : Z := Z.land meid MSB_MASK_CMP.
(** Modelled from the spec: the tag bit is clear. *)
Definition SINGLE_EDGE (x : Z) : bool := Z.land x MSB_MASK =? 0.

Definition NULL : Z := 0.

(** ** Entity store *)

(** Modelled from the spec: the entity header is not part of the sources
    at hand.  An entity is a property-block handle plus a property count;
    the two fields are the ones the serializer writes. *)
Record Entity : Type := mkEntity {
  prop_count : Z;
  properties : Z          (* pointer to the property block, [NULL] if none *)
}.

(** Modelled from the spec: a slot of the entity store, tombstoned or
    not, with the record it holds. *)
Record DataBlockItem : Type := mkItem {
  item_deleted : bool;
  item_data : Entity
}.

(** Modelled from the spec: the entity store maps an integer id to a
    record and owns the append-only sequence of tombstoned ids, ordered by
    deletion time ([deletedIdx] is the field the serializer reads). *)
Record DataBlock : Type := mkDataBlock {
  items : gmap Z DataBlockItem;
  deletedIdx : list Z
}.

(** Memory of a block is handed out zeroed. *)
Definition zeroed_entity : Entity := mkEntity 0 NULL.

Definition item_liveb (db : DataBlock) (idx : Z) : bool :=
  match items db !! idx with
  | Some it => negb (item_deleted it)
  | None => false
  end.

(** Modelled from the spec: [DataBlock_AllocateItemOutOfOrder] lives in
    the datablock module, which is not part of the sources at hand.
    Out-of-order allocation at a caller-chosen id; it aborts if the id is
    already allocated and not deleted.  The slot keeps whatever bytes it
    held (zeroes when it was never used); the result is a pointer to the
    slot, represented by its index in the block. *)
Definition DataBlock_AllocateItemOutOfOrder (db : DataBlock) (idx : Z)
  : outcome (DataBlock * Z) :=
  match items db !! idx with
  | Some it =>
      if item_deleted it
      then Done (mkDataBlock (<[idx := mkItem false (item_data it)]> (items db))
                             (deletedIdx db), idx)
      else Fatal
  | None =>
      Done (mkDataBlock (<[idx := mkItem false zeroed_entity]> (items db))
                        (deletedIdx db), idx)
  end.

(** Modelled from the spec: [DataBlock_MarkAsDeletedOutOfOrder], from the
    same absent module.  It tombstones an id without compaction and
    appends it to the deletion sequence. *)
Definition DataBlock_MarkAsDeletedOutOfOrder (db : DataBlock) (idx : Z)
  : DataBlock :=
  mkDataBlock
    (partial_alter
       (fun o => Some (mkItem true (from_option item_data zeroed_entity o)))
       idx (items db))
    (deletedIdx db ++ [idx]).

(** Field writes through an [Entity *] into a block. *)
Definition Entity_write (f : Entity -> Entity) (db : DataBlock) (en : Z)
  : DataBlock :=
  mkDataBlock
    (alter (fun it => mkItem (item_deleted it) (f (item_data it))) en (items db))
    (deletedIdx db).

Definition set_prop_count (v : Z) (e : Entity) : Entity :=
  mkEntity v (properties e).
Definition set_properties (v : Z) (e : Entity) : Entity :=
  mkEntity (prop_count e) v.

Definition Entity_deref (db : DataBlock) (en : Z) : option Entity :=
  item_data <$> items db !! en.

(** ** Node and edge records handed back to the caller *)

(** Modelled from the spec: a node wraps an id and an entity reference
    (C fields [entity] and [id]). *)
Record Node : Type := mkNode {
  n_entity : Z;
  n_id : Z
}.

(** Modelled from the spec: an edge wraps an id, an entity reference, a
    relation-type tag and the ordered pair of its end points (C fields
    [entity], [id], [relationID], [srcNodeID], [destNodeID]). *)
Record Edge : Type := mkEdge {
  e_entity : Z;
  e_id : Z;
  relationID : Z;
  srcNodeID : Z;
  destNodeID : Z
}.

(** ** Matrices *)

(** Modelled from the spec: every connectivity matrix is kept as a
    forward matrix and its transpose counterpart.  A sparse matrix is a
    finite map from coordinates to stored entries; an absent key is "no
    value", which differs from a stored zero. *)
Record RG_Matrix (A : Type) : Type := mkRG {
  rg_matrix : gmap (Z * Z) A;
  rg_transposed : gmap (Z * Z) A
}.
Arguments mkRG {A} _ _.
Arguments rg_matrix {A} _.
Arguments rg_transposed {A} _.

Definition RG_empty {A : Type} : RG_Matrix A := mkRG ∅ ∅.

(** Modelled from the spec: one edge counter per relation type. *)
Record GraphStatistics : Type := mkStats {
  edge_count : list Z
}.

(** Modelled from the spec: the graph object, of which the serializer
    uses the two entity stores ([nodes], [edges]), the statistics
    ([stats]) and, through the accessors, the adjacency matrix, one matrix
    per label, the node-label matrix and one matrix per relation type. *)
Record Graph : Type := mkGraph {
  nodes : DataBlock;
  edges : DataBlock;
  adjacency_matrix : RG_Matrix bool;
  labels : list (RG_Matrix bool);
  node_labels : RG_Matrix bool;
  relations : list (RG_Matrix Z);
  stats : GraphStatistics
}.

(** ** Heap of growable arrays *)

(** Modelled from the spec: a growable, insertion-ordered sequence of
    edge ids, with the capacity of the block that holds it. *)
Record array : Type := mkArray {
  arr_cap : nat;
  arr_items : list Z
}.

(** User-space addresses never have the top bit set. *)
Definition HEAP_END : Z := 2 ^ 63.
(** Blocks are handed out this far apart; the model tracks which block an
    address names, not how many bytes it spans. *)
Definition BLOCK_STRIDE : Z := 16.

(** The graph, the heap blocks in use with the next address to hand out,
    and what the environment will answer: whether the reallocations to
    come move the block, whether the calls to come that build or write a
    matrix or a vector fail. *)
Record World : Type := mkWorld {
  graph : Graph;
  arrays : gmap Z array;
  brk : Z;
  realloc_moves : list bool;
  grb_faults : list bool
}.

Definition prog (A : Type) : Type := World -> outcome (A * World).

#[export] Instance prog_ret : MRet prog := fun A a w => Done (a, w).
#[export] Instance prog_bind : MBind prog := fun A B f c w =>
  match c w with
  | Done (a, w') => f a w'
  | Fatal => Fatal
  end.

(** Modelled from the spec: the assertion macro is not part of the sources
    at hand; a failed assertion is fatal and the process does not go on. *)
Definition ASSERT (b : bool) : prog unit :=
  fun w => if b then Done (tt, w) else Fatal.

(** ** World updates *)

Definition upd_graph (f : Graph -> Graph) (w : World) : World :=
  mkWorld (f (graph w)) (arrays w) (brk w) (realloc_moves w) (grb_faults w).

Definition set_nodes (d : DataBlock) (g : Graph) : Graph :=
  mkGraph d (edges g) (adjacency_matrix g) (labels g) (node_labels g)
          (relations g) (stats g).
Definition set_edges (d : DataBlock) (g : Graph) : Graph :=
  mkGraph (nodes g) d (adjacency_matrix g) (labels g) (node_labels g)
          (relations g) (stats g).
Definition set_adjacency (a : RG_Matrix bool) (g : Graph) : Graph :=
  mkGraph (nodes g) (edges g) a (labels g) (node_labels g)
          (relations g) (stats g).
Definition set_labels (l : list (RG_Matrix bool)) (g : Graph) : Graph :=
  mkGraph (nodes g) (edges g) (adjacency_matrix g) l (node_labels g)
          (relations g) (stats g).
Definition set_node_labels (a : RG_Matrix bool) (g : Graph) : Graph :=
  mkGraph (nodes g) (edges g) (adjacency_matrix g) (labels g) a
          (relations g) (stats g).
Definition set_relations (l : list (RG_Matrix Z)) (g : Graph) : Graph :=
  mkGraph (nodes g) (edges g) (adjacency_matrix g) (labels g) (node_labels g)
          l (stats g).
Definition set_stats (s : GraphStatistics) (g : Graph) : Graph :=
  mkGraph (nodes g) (edges g) (adjacency_matrix g) (labels g) (node_labels g)
          (relations g) s.

Definition set_rg_matrix {A} (m : gmap (Z * Z) A) (R : RG_Matrix A) : RG_Matrix A :=
  mkRG m (rg_transposed R).
Definition set_rg_transposed {A} (m : gmap (Z * Z) A) (R : RG_Matrix A) : RG_Matrix A :=
  mkRG (rg_matrix R) m.

(** ** Pointers into the world *)

(** A C pointer to a matrix object is a pair of a reader and a writer on
    the world. *)
Record ref (A : Type) : Type := mkRef {
  rd : World -> A;
  wr : A -> World -> World
}.
Arguments mkRef {A} _ _.
Arguments rd {A} _ _.
Arguments wr {A} _ _ _.

Record RG_Matrix_ref (A : Type) : Type := mkRGref {
  RG_MATRIX_M : ref (gmap (Z * Z) A);
  RG_MATRIX_TM : ref (gmap (Z * Z) A)
}.
Arguments mkRGref {A} _ _.
Arguments RG_MATRIX_M {A} _.
Arguments RG_MATRIX_TM {A} _.

Definition RG_flip {A} (transposed : bool) (R : RG_Matrix_ref A) : RG_Matrix_ref A :=
  if transposed then mkRGref (RG_MATRIX_TM R) (RG_MATRIX_M R) else R.

Definition adjacency_ref : RG_Matrix_ref bool :=
  mkRGref
    (mkRef (fun w => rg_matrix (adjacency_matrix (graph w)))
           (fun m => upd_graph (fun g =>
              set_adjacency (set_rg_matrix m (adjacency_matrix g)) g)))
    (mkRef (fun w => rg_transposed (adjacency_matrix (graph w)))
           (fun m => upd_graph (fun g =>
              set_adjacency (set_rg_transposed m (adjacency_matrix g)) g))).

Definition node_labels_ref : RG_Matrix_ref bool :=
  mkRGref
    (mkRef (fun w => rg_matrix (node_labels (graph w)))
           (fun m => upd_graph (fun g =>
              set_node_labels (set_rg_matrix m (node_labels g)) g)))
    (mkRef (fun w => rg_transposed (node_labels (graph w)))
           (fun m => upd_graph (fun g =>
              set_node_labels (set_rg_transposed m (node_labels g)) g))).

Definition label_ref (l : nat) : RG_Matrix_ref bool :=
  mkRGref
    (mkRef (fun w => from_option rg_matrix ∅ (labels (graph w) !! l))
           (fun m => upd_graph (fun g =>
              set_labels (alter (set_rg_matrix m) l (labels g)) g)))
    (mkRef (fun w => from_option rg_transposed ∅ (labels (graph w) !! l))
           (fun m => upd_graph (fun g =>
              set_labels (alter (set_rg_transposed m) l (labels g)) g))).

Definition relation_ref (r : nat) : RG_Matrix_ref Z :=
  mkRGref
    (mkRef (fun w => from_option rg_matrix ∅ (relations (graph w) !! r))
           (fun m => upd_graph (fun g =>
              set_relations (alter (set_rg_matrix m) r (relations g)) g)))
    (mkRef (fun w => from_option rg_transposed ∅ (relations (graph w) !! r))
           (fun m => upd_graph (fun g =>
              set_relations (alter (set_rg_transposed m) r (relations g)) g))).

(** ** Graph accessors (declared in the graph header, defined elsewhere) *)

Definition index_ok {A} (i : Z) (l : list A) : bool :=
  bool_decide (0 <= i < Z.of_nat (length l)).

(** Modelled from the spec: the number of label matrices of the graph. *)
Definition Graph_LabelTypeCount : prog Z :=
  fun w => Done (Z.of_nat (length (labels (graph w))), w).

(** Modelled from the spec: the matrix collaborator keeps every matrix and
    every vector built here at one common dimension that covers every
    allocated node id; matrices are therefore left unbounded and the
    dimension is only carried along. *)
Definition Graph_RequiredMatrixDim : prog Z :=
  fun w => Done
    (map_fold (fun k _ acc => Z.max (k + 1) acc) 0 (items (nodes (graph w))), w).

(** Modelled from the spec: given a direction flag, the live adjacency
    matrix handle with its transpose counterpart. *)
Definition Graph_GetAdjacencyMatrix (transposed : bool) : prog (RG_Matrix_ref bool) :=
  mret (RG_flip transposed adjacency_ref).

(** Modelled from the spec: the handle of the combined node-label matrix. *)
Definition Graph_GetNodeLabelMatrix : prog (RG_Matrix_ref bool) :=
  mret node_labels_ref.

(** Modelled from the spec: the handle of one label's matrix.  Unknown
    label ids are the caller's to rule out; handing one in trips the
    accessor's assertion. *)
Definition Graph_GetLabelMatrix (label : Z) : prog (RG_Matrix_ref bool) :=
  fun w => if index_ok label (labels (graph w))
           then Done (label_ref (Z.to_nat label), w) else Fatal.

(** Modelled from the spec: given a relation type and a direction flag,
    the live forward matrix handle and its transpose counterpart for that
    type; an unknown relation id trips the accessor's assertion. *)
Definition Graph_GetRelationMatrix (r : Z) (transposed : bool)
  : prog (RG_Matrix_ref Z) :=
  fun w => if index_ok r (relations (graph w))
           then Done (RG_flip transposed (relation_ref (Z.to_nat r)), w)
           else Fatal.

(** Modelled from the spec: the statistics collaborator's
    [increment_edge_count(relationType, delta)]; counters are [uint64_t]. *)
Definition GraphStatistics_IncEdgeCount (r : Z) (nedges : Z) : prog unit :=
  fun w =>
    if index_ok r (edge_count (stats (graph w)))
    then Done (tt, upd_graph (fun g =>
           set_stats (mkStats (alter (fun c => (c + nedges) mod UINT64_MOD)
                                     (Z.to_nat r) (edge_count (stats g)))) g) w)
    else Fatal.

(** ** Sparse-matrix primitives *)

(** The sparse-matrix library is an external collaborator; its
    operations follow the GraphBLAS interface.  Of its statuses, the ones
    that matter here. *)
Inductive GrB_Info : Type :=
  | GrB_SUCCESS
  | GrB_NO_VALUE
  | GrB_NULL_POINTER
  | GrB_OUT_OF_MEMORY.

#[export] Instance GrB_Info_eq_dec : EqDecision GrB_Info.
Proof. solve_decision. Defined.

(** Whether the next call that builds or writes a matrix or a vector
    reports failure is the library's to say: the world carries the answers
    still to come, and an exhausted list means every further call
    succeeds. *)
Definition grb_next_fault : prog bool :=
  fun w =>
    match grb_faults w with
    | [] => Done (false, w)
    | b :: fs =>
        Done (b, mkWorld (graph w) (arrays w) (brk w) (realloc_moves w) fs)
    end.

(** [C(i,j) = x].  A write that reports failure leaves the matrix as it
    was. *)
Definition GrB_Matrix_setElement {A} (C : ref (gmap (Z * Z) A)) (x : A) (i j : Z)
  : prog GrB_Info :=
  failed ← grb_next_fault;
  if (failed : bool) then mret GrB_OUT_OF_MEMORY
  else fun w => Done (GrB_SUCCESS, wr C (<[(i, j) := x]> (rd C w)) w).

Definition GrB_Matrix_setElement_BOOL := @GrB_Matrix_setElement bool.
Definition GrB_Matrix_setElement_UINT64 := @GrB_Matrix_setElement Z.

(** [x = A(i,j)], telling an absent entry from a stored one.  [x] is the
    out-parameter: it is left alone when the entry is absent. *)
Definition GrB_Matrix_extractElement (x : Z) (A : ref (gmap (Z * Z) Z)) (i j : Z)
  : prog (GrB_Info * Z) :=
  fun w =>
    match rd A w !! (i, j) with
    | Some v => Done ((GrB_SUCCESS, v), w)
    | None => Done ((GrB_NO_VALUE, x), w)
    end.

(** A vector handle: the entries of the vector it names, or the null
    handle that a failed creation leaves in the caller's variable. *)
Definition GrB_Vector : Type := option (gmap Z bool).

(** A new vector has no entries; its dimension is the collaborator's
    business (see [Graph_RequiredMatrixDim]).  A creation that reports
    failure hands back the null handle. *)
Definition GrB_Vector_new (n : Z) : prog (GrB_Info * GrB_Vector) :=
  failed ← grb_next_fault;
  if (failed : bool) then mret (GrB_OUT_OF_MEMORY, None)
  else mret (GrB_SUCCESS, Some ∅).

(** Freeing takes the null handle as well as a live one. *)
Definition GrB_Vector_free (v : GrB_Vector) : prog GrB_Info := mret GrB_SUCCESS.

(** [v = diag(A, 0)]: every stored diagonal entry, nothing else. *)
Definition diag_entries {A} (m : gmap (Z * Z) A) : gmap Z A :=
  map_fold (fun ij x acc => if decide (ij.1 = ij.2) then <[ij.1 := x]> acc else acc)
           ∅ m.

(** The null handle is turned down before anything is done; a call that
    reports failure leaves the vector with the entries it had. *)
Definition GxB_Vector_diag (v : GrB_Vector) (A : ref (gmap (Z * Z) bool))
  : prog (GrB_Info * GrB_Vector) :=
  match v with
  | None => mret (GrB_NULL_POINTER, None)
  | Some u =>
      failed ← grb_next_fault;
      if (failed : bool) then mret (GrB_OUT_OF_MEMORY, Some u)
      else fun w => Done ((GrB_SUCCESS, Some (diag_entries (rd A w))), w)
  end.

(** [C(:, j) = u] with neither mask nor accumulator: the column is
    replaced, so entries of the column that [u] lacks are dropped. *)
Definition col_assign {A} (C : gmap (Z * Z) A) (u : gmap Z A) (j : Z)
  : gmap (Z * Z) A :=
  kmap (fun i => (i, j)) u ∪ filter (fun kv => kv.1.2 <> j) C.

(** The null handle is turned down before anything is done; a call that
    reports failure leaves the matrix as it was. *)
Definition GxB_Col_subassign (C : ref (gmap (Z * Z) bool)) (u : GrB_Vector) (j : Z)
  : prog GrB_Info :=
  match u with
  | None => mret GrB_NULL_POINTER
  | Some u =>
      failed ← grb_next_fault;
      if (failed : bool) then mret GrB_OUT_OF_MEMORY
      else fun w => Done (GrB_SUCCESS, wr C (col_assign (rd C w) u j) w)
  end.

(** ** Growable arrays *)

(** Modelled from the spec: the array macros come from the utilities,
    which are not part of the sources at hand; the sequence they give is
    growable and appended to in order.  The allocator either serves a
    request or brings the process down. *)
Definition heap_alloc (a : array) : prog Z :=
  fun w =>
    if bool_decide (brk w + BLOCK_STRIDE <= HEAP_END)
    then Done (brk w, mkWorld (graph w) (<[brk w := a]> (arrays w))
                              (brk w + BLOCK_STRIDE) (realloc_moves w) (grb_faults w))
    else Fatal.

(** Giving a block back, overwriting one, reading one; reading through a
    pointer that names no block is undefined and ends the run. *)
Definition heap_free (p : Z) : prog unit :=
  fun w => Done (tt, mkWorld (graph w) (delete p (arrays w)) (brk w)
                             (realloc_moves w) (grb_faults w)).

Definition heap_store (p : Z) (a : array) : prog unit :=
  fun w => Done (tt, mkWorld (graph w) (<[p := a]> (arrays w)) (brk w)
                             (realloc_moves w) (grb_faults w)).

Definition heap_load (p : Z) : prog array :=
  fun w => match arrays w !! p with Some a => Done (a, w) | None => Fatal end.

(** Whether a reallocation moves the block is the allocator's to say. *)
Definition realloc_next_move : prog bool :=
  fun w =>
    match realloc_moves w with
    | [] => Done (false, w)
    | b :: bs => Done (b, mkWorld (graph w) (arrays w) (brk w) bs (grb_faults w))
    end.

(** Modelled from the spec: a new, empty growable sequence of the given
    capacity. *)
Definition array_new (cap : nat) : prog Z := heap_alloc (mkArray cap []).

(** Modelled from the spec: order-preserving append, growing the block
    when it is full.  The macro assigns the possibly moved block back to
    its argument; here the new pointer is the result. *)
Definition array_append (arr : Z) (x : Z) : prog Z :=
  a ← heap_load arr;
  if bool_decide (length (arr_items a) < arr_cap a)%nat
  then heap_store arr (mkArray (arr_cap a) (arr_items a ++ [x]));; mret arr
  else
    let a' := mkArray (Nat.max (2 * arr_cap a) (S (length (arr_items a))))
                      (arr_items a ++ [x]) in
    moved ← realloc_next_move;
    if (moved : bool)
    then heap_free arr;; heap_alloc a'
    else heap_store arr a';; mret arr.

(** ** The serializer's graph extensions *)

Definition on_nodes (f : DataBlock -> DataBlock) : prog unit :=
  fun w => Done (tt, upd_graph (fun g => set_nodes (f (nodes g)) g) w).
Definition on_edges (f : DataBlock -> DataBlock) : prog unit :=
  fun w => Done (tt, upd_graph (fun g => set_edges (f (edges g)) g) w).

Definition alloc_node (id : Z) : prog Z :=
  fun w => match DataBlock_AllocateItemOutOfOrder (nodes (graph w)) id with
           | Done (db, en) => Done (en, upd_graph (set_nodes db) w)
           | Fatal => Fatal
           end.
Definition alloc_edge (id : Z) : prog Z :=
  fun w => match DataBlock_AllocateItemOutOfOrder (edges (graph w)) id with
           | Done (db, en) => Done (en, upd_graph (set_edges db) w)
           | Fatal => Fatal
           end.

(** [for (i = lo; ...; i++)] running [n] times. *)
Fixpoint for_loop (i : Z) (n : nat) (body : Z -> prog unit) : prog unit :=
  match n with
  | O => mret tt
  | S k => body i;; for_loop (i + 1) k body
  end.

(** The same loop around a local variable that each round may update. *)
Fixpoint for_loop_with {T : Type} (i : Z) (n : nat) (x : T)
    (body : Z -> T -> prog T) : prog T :=
  match n with
  | O => mret x
  | S k => x' ← body i x; for_loop_with (i + 1) k x' body
  end.

(** Reading a C array argument; past its end the behaviour is undefined. *)
Definition array_arg (l : list Z) (i : Z) : prog Z :=
  fun w => if bool_decide (0 <= i)
           then match l !! Z.to_nat i with
                | Some v => Done (v, w)
                | None => Fatal
                end
           else Fatal.

Definition Serializer_Graph_MarkEdgeDeleted (id : Z) : prog unit :=
  on_edges (fun db => DataBlock_MarkAsDeletedOutOfOrder db id).

Definition Serializer_Graph_MarkNodeDeleted (id : Z) : prog unit :=
  on_nodes (fun db => DataBlock_MarkAsDeletedOutOfOrder db id).

Definition Serializer_Graph_SetNode
    (id : Z) (labels : list Z) (label_count : nat) (n : Node) : prog Node :=
  en ← alloc_node id;
  on_nodes (fun db => Entity_write (set_prop_count 0) db en);;
  on_nodes (fun db => Entity_write (set_properties NULL) db en);;
  let n := mkNode (n_entity n) id in
  let n := mkNode en (n_id n) in
  for_loop 0 label_count (fun i =>
    label ← array_arg labels i;
    (* set label matrix at position [id, id] *)
    M ← Graph_GetLabelMatrix label;
    let m := RG_MATRIX_M M in
    _ ← GrB_Matrix_setElement_BOOL m true id id;
    mret tt);;
  mret n.

Definition Serializer_Graph_SetNodeLabels : prog unit :=
  node_count ← Graph_RequiredMatrixDim;
  label_count ← Graph_LabelTypeCount;
  node_labels ← Graph_GetNodeLabelMatrix;
  let node_labels_m := RG_MATRIX_M node_labels in
  '(_, v) ← GrB_Vector_new node_count;
  (* none of the statuses below is looked at; [v] is carried from one
     round to the next *)
  v ← for_loop_with 0 (Z.to_nat label_count) v (fun i v =>
    M ← Graph_GetLabelMatrix i;
    let m := RG_MATRIX_M M in
    '(_, v) ← GxB_Vector_diag v m;
    _ ← GxB_Col_subassign node_labels_m v i;
    mret v);
  _ ← GrB_Vector_free v;
  mret tt.

(** optimized version of Graph_FormConnection
    used only when matrix not contains multi edge values *)
Definition _OptimizedSingleEdgeFormConnection
    (src dest edge_id : Z) (r : Z) : prog unit :=
  M ← Graph_GetRelationMatrix r false;
  adj ← Graph_GetAdjacencyMatrix false;
  let m := RG_MATRIX_M M in
  let tm := RG_MATRIX_TM M in
  let adj_m := RG_MATRIX_M adj in
  let adj_tm := RG_MATRIX_TM adj in
  (* rows represent source nodes, columns represent destination nodes *)
  info ← GrB_Matrix_setElement_BOOL adj_m true src dest;
  ASSERT (bool_decide (info = GrB_SUCCESS));;
  info ← GrB_Matrix_setElement_BOOL adj_tm true dest src;
  ASSERT (bool_decide (info = GrB_SUCCESS));;
  info ← GrB_Matrix_setElement_UINT64 m edge_id src dest;
  ASSERT (bool_decide (info = GrB_SUCCESS));;
  info ← GrB_Matrix_setElement_UINT64 tm edge_id dest src;
  ASSERT (bool_decide (info = GrB_SUCCESS));;
  (* an edge of type r has just been created, update statistics *)
  GraphStatistics_IncEdgeCount r 1.

(** optimized version of Graph_FormConnection
    used only when matrix contains multi edge values *)
Definition _OptimizedMultiEdgeFormConnection
    (src dest edge_id : Z) (r : Z) : prog unit :=
  let x := 0 in   (* GrB_Index x; not read before it is written *)
  M ← Graph_GetRelationMatrix r false;
  adj ← Graph_GetAdjacencyMatrix false;
  let m := RG_MATRIX_M M in
  let tm := RG_MATRIX_TM M in
  let adj_m := RG_MATRIX_M adj in
  let adj_tm := RG_MATRIX_TM adj in
  (* rows represent source nodes, columns represent destination nodes *)
  info ← GrB_Matrix_setElement_BOOL adj_m true src dest;
  ASSERT (bool_decide (info = GrB_SUCCESS));;
  info ← GrB_Matrix_setElement_BOOL adj_tm true dest src;
  ASSERT (bool_decide (info = GrB_SUCCESS));;
  '(info, x) ← GrB_Matrix_extractElement x m src dest;
  (if bool_decide (info = GrB_NO_VALUE) then
     info ← GrB_Matrix_setElement_UINT64 m edge_id src dest;
     ASSERT (bool_decide (info = GrB_SUCCESS));;
     info ← GrB_Matrix_setElement_UINT64 tm edge_id dest src;
     ASSERT (bool_decide (info = GrB_SUCCESS))
   else
     entries ←
       (if SINGLE_EDGE x then
          (* swap from single entry to multi-entry *)
          entries ← array_new 2;
          entries ← array_append entries x;
          array_append entries edge_id
        else
          let x := CLEAR_MSB x in
          (* append entry to array *)
          let entries := x in
          array_append entries edge_id);
     let x := entries in
     let x := SET_MSB x in
     info ← GrB_Matrix_setElement_UINT64 m x src dest;
     info ← GrB_Matrix_setElement_UINT64 tm x dest src;
     mret tt);;
  (* an edge of type r has just been created, update statistics *)
  GraphStatistics_IncEdgeCount r 1.

(** Set a given edge in the graph - Used for deserialization of graph. *)
Definition Serializer_Graph_SetEdge
    (multi_edge : Z) (edge_id src dest : Z) (r : Z) (e : Edge) : prog Edge :=
  en ← alloc_edge edge_id;
  on_edges (fun db => Entity_write (set_prop_count 0) db en);;
  on_edges (fun db => Entity_write (set_properties NULL) db en);;
  let e := mkEdge (e_entity e) edge_id (relationID e) (srcNodeID e) (destNodeID e) in
  let e := mkEdge en (e_id e) (relationID e) (srcNodeID e) (destNodeID e) in
  let e := mkEdge (e_entity e) (e_id e) r (srcNodeID e) (destNodeID e) in
  let e := mkEdge (e_entity e) (e_id e) (relationID e) src (destNodeID e) in
  let e := mkEdge (e_entity e) (e_id e) (relationID e) (srcNodeID e) dest in
  (if bool_decide (multi_edge <> 0)
   then _OptimizedMultiEdgeFormConnection src dest edge_id r
   else _OptimizedSingleEdgeFormConnection src dest edge_id r);;
  mret e.

(** Returns the graph deleted nodes list. *)
Definition Serializer_Graph_GetDeletedNodesList (g : Graph) : list Z :=
  deletedIdx (nodes g).

(** Returns the graph deleted edges list. *)
Definition Serializer_Graph_GetDeletedEdgesList (g : Graph) : list Z :=
  deletedIdx (edges g).

(** ** Loads: sequences of calls made by the restore driver *)

Record edge_rec : Type := mkEdgeRec {
  er_multi : Z;
  er_id : Z;
  er_src : Z;
  er_dest : Z;
  er_rel : Z
}.

Definition blank_edge : Edge := mkEdge NULL 0 0 0 0.
Definition blank_node : Node := mkNode NULL 0.

Definition set_edge_of (c : edge_rec) : prog Edge :=
  Serializer_Graph_SetEdge (er_multi c) (er_id c) (er_src c) (er_dest c)
                           (er_rel c) blank_edge.

Fixpoint load_edges (cs : list edge_rec) : prog unit :=
  match cs with
  | [] => mret tt
  | c :: cs' => set_edge_of c;; load_edges cs'
  end.

Record node_rec : Type := mkNodeRec {
  nr_id : Z;
  nr_labels : list Z
}.

Definition set_node_of (c : node_rec) : prog Node :=
  Serializer_Graph_SetNode (nr_id c) (nr_labels c) (length (nr_labels c)) blank_node.

Fixpoint load_nodes (cs : list node_rec) : prog unit :=
  match cs with
  | [] => mret tt
  | c :: cs' => set_node_of c;; load_nodes cs'
  end.

(** ** Reading a relation cell back *)

Definition cell (g : Graph) (r : nat) (src dest : Z) : option Z :=
  R ← relations g !! r; rg_matrix R !! (src, dest).

Definition cell_T (g : Graph) (r : nat) (dest src : Z) : option Z :=
  R ← relations g !! r; rg_transposed R !! (dest, src).

(** Modelled from the spec: the reader of a tagged cell belongs to the
    traversal code, which is not part of the sources at hand.  With the
    top bit clear the scalar is exactly one edge id; with the top bit set
    the remaining bits refer to the sequence of all parallel edges. *)
Definition cell_ids (h : gmap Z array) (x : Z) : list Z :=
  if SINGLE_EDGE x then [x]
  else from_option arr_items [] (h !! CLEAR_MSB x).

Definition edges_between (w : World) (r : nat) (src dest : Z) : list Z :=
  from_option (cell_ids (arrays w)) [] (cell (graph w) r src dest).

Definition edges_between_T (w : World) (r : nat) (dest src : Z) : list Z :=
  from_option (cell_ids (arrays w)) [] (cell_T (graph w) r dest src).

(** * Vocabulary of the properties *)

(** What either connection routine makes of the graph when the relation
    cell and its transpose cell receive the scalar [x]: both adjacency
    bits set, both relation entries written, the counter of [r] bumped. *)
Definition connect_effect (s d x : Z) (r : nat) (g : Graph) : Graph :=
  mkGraph (nodes g) (edges g)
    (mkRG (<[(s, d) := true]> (rg_matrix (adjacency_matrix g)))
          (<[(d, s) := true]> (rg_transposed (adjacency_matrix g))))
    (labels g) (node_labels g)
    (alter (fun R => mkRG (<[(s, d) := x]> (rg_matrix R))
                          (<[(d, s) := x]> (rg_transposed R)))
           r (relations g))
    (mkStats (alter (fun c => (c + 1) mod UINT64_MOD) r (edge_count (stats g)))).

(** Well-formed worlds.  The heap lies below the break; a relation cell
    is a 64-bit scalar and, when tagged, names a live array of at least
    two ids; transpose cells mirror forward cells; no two cells name the
    same array; there is one counter per relation type; the adjacency
    transpose mirrors the adjacency matrix. *)
Record wf (w : World) : Prop := mk_wf {
  wf_brk : 0 < brk w <= HEAP_END;
  wf_heap : forall p a, arrays w !! p = Some a -> 0 < p < brk w;
  wf_cells : forall r s d x,
    cell (graph w) r s d = Some x ->
    0 <= x < UINT64_MOD /\
    (SINGLE_EDGE x = false ->
     exists a, arrays w !! CLEAR_MSB x = Some a /\ (2 <= length (arr_items a))%nat);
  wf_mirror : forall r s d, cell_T (graph w) r d s = cell (graph w) r s d;
  wf_sep : forall r1 s1 d1 x1 r2 s2 d2 x2,
    cell (graph w) r1 s1 d1 = Some x1 ->
    cell (graph w) r2 s2 d2 = Some x2 ->
    SINGLE_EDGE x1 = false -> SINGLE_EDGE x2 = false ->
    CLEAR_MSB x1 = CLEAR_MSB x2 ->
    (r1, s1, d1) = (r2, s2, d2);
  wf_stats :
    length (edge_count (stats (graph w))) = length (relations (graph w));
  wf_adj : forall s d,
    rg_transposed (adjacency_matrix (graph w)) !! (d, s)
    = rg_matrix (adjacency_matrix (graph w)) !! (s, d)
}.

(** What a connection may do to the heap without disturbing the cells it
    does not write. *)
Definition heap_frame (w : World) (r : nat) (s d : Z) (h' : gmap Z array) (x' : Z)
  : Prop :=
  forall r2 s2 d2 x2,
    (r2, s2, d2) <> (r, s, d) ->
    cell (graph w) r2 s2 d2 = Some x2 ->
    SINGLE_EDGE x2 = false ->
    h' !! CLEAR_MSB x2 = arrays w !! CLEAR_MSB x2 /\
    (SINGLE_EDGE x' = false -> CLEAR_MSB x2 <> CLEAR_MSB x').

(** How far a cell has come: absent, one edge id, a sequence. *)
Definition tag_level (c : option Z) : nat :=
  match c with
  | None => 0
  | Some x => if SINGLE_EDGE x then 1 else 2
  end.

(** The record inserts between [s] and [d] under relation type [r]. *)
Definition on_cell (r : nat) (s d : Z) (c : edge_rec) : Prop :=
  Z.to_nat (er_rel c) = r /\ er_src c = s /\ er_dest c = d.

#[export] Instance on_cell_dec r s d c : Decision (on_cell r s d c).
Proof. unfold on_cell. apply _. Defined.

(** What one connection on cell [(s, d)] of relation [r] with edge [id]
    achieves from [w] to [w'], [E] being the edge store it leaves. *)
Record connected (multi : bool) (id s d : Z) (r : nat) (E : DataBlock)
    (w w' : World) : Prop := mk_connected {
  cn_wf : wf w';
  cn_faults : grb_faults w' = [];
  cn_brk : brk w <= brk w' <= brk w + BLOCK_STRIDE;
  cn_nodes : nodes (graph w') = nodes (graph w);
  cn_edges : edges (graph w') = E;
  cn_labels : labels (graph w') = labels (graph w);
  cn_node_labels : node_labels (graph w') = node_labels (graph w);
  cn_adj :
    adjacency_matrix (graph w')
    = mkRG (<[(s, d) := true]> (rg_matrix (adjacency_matrix (graph w))))
           (<[(d, s) := true]> (rg_transposed (adjacency_matrix (graph w))));
  cn_count :
    edge_count (stats (graph w'))
    = alter (fun c => (c + 1) mod UINT64_MOD) r (edge_count (stats (graph w)));
  cn_rels : length (relations (graph w')) = length (relations (graph w));
  cn_cell_other : forall r2 s2 d2,
    (r2, s2, d2) <> (r, s, d) ->
    cell (graph w') r2 s2 d2 = cell (graph w) r2 s2 d2;
  cn_between_other : forall r2 s2 d2,
    (r2, s2, d2) <> (r, s, d) ->
    edges_between w' r2 s2 d2 = edges_between w r2 s2 d2;
  cn_between :
    edges_between w' r s d
    = (if multi then edges_between w r s d else []) ++ [id];
  cn_level :
    tag_level (cell (graph w') r s d)
    = if multi then Nat.min 2 (S (tag_level (cell (graph w) r s d))) else 1%nat;
  cn_plain :
    (multi = false \/ cell (graph w) r s d = None) ->
    cell (graph w') r s d = Some id;
  cn_shared :
    multi = true -> is_Some (cell (graph w) r s d) ->
    exists p a,
      cell (graph w') r s d = Some (SET_MSB p) /\
      cell_T (graph w') r d s = Some (SET_MSB p) /\
      0 < p < HEAP_END /\
      arrays w' !! p = Some a /\
      arr_items a = edges_between w r s d ++ [id] /\
      (forall q (b : array), q <> p -> arrays w' !! q = Some b -> arrays w !! q = Some b)
}.

(** The store after the allocation at [id] and the two field writes that
    follow it. *)
Definition fresh_slot (db : DataBlock) (id : Z) : DataBlock :=
  mkDataBlock (<[id := mkItem false (mkEntity 0 NULL)]> (items db)) (deletedIdx db).

(** The dispatch that ends [Serializer_Graph_SetEdge]. *)
Definition connect_by (multi_edge : Z) (src dest edge_id r : Z) : prog unit :=
  if bool_decide (multi_edge <> 0)
  then _OptimizedMultiEdgeFormConnection src dest edge_id r
  else _OptimizedSingleEdgeFormConnection src dest edge_id r.

(** The truth value of the flag as C reads it. *)
Definition multi_flag (multi_edge : Z) : bool := bool_decide (multi_edge <> 0).

(** The worlds a load passes through, one connection per record. *)
Inductive loads : list edge_rec -> World -> World -> Prop :=
  | loads_nil w : loads [] w w
  | loads_cons c cs w w1 w' :
      connected (multi_flag (er_multi c)) (er_id c) (er_src c) (er_dest c)
                (Z.to_nat (er_rel c)) (fresh_slot (edges (graph w)) (er_id c))
                w w1 ->
      loads cs w1 w' ->
      loads (c :: cs) w w'.

(** What a load may rely on: a well-formed world whose matrix writes
    succeed, known relation types, edge ids that fit 63 bits, are not in
    use and do not repeat, and room on the heap for one block per call. *)
Record load_pre (w : World) (cs : list edge_rec) : Prop := mk_load_pre {
  lp_wf : wf w;
  lp_faults : grb_faults w = [];
  lp_rel : Forall (fun c => index_ok (er_rel c) (relations (graph w)) = true) cs;
  lp_id : Forall (fun c => 0 <= er_id c < 2 ^ 63) cs;
  lp_new : Forall (fun c => item_liveb (edges (graph w)) (er_id c) = false) cs;
  lp_nodup : NoDup (er_id <$> cs);
  lp_mem : brk w + BLOCK_STRIDE * Z.of_nat (length cs) <= HEAP_END
}.

(** The single-edge routine is used as intended along the load: every
    record handed to it finds its relation cell without a value. *)
Fixpoint single_finds_empty (cs : list edge_rec) (w : World) : bool :=
  match cs with
  | [] => true
  | c :: cs' =>
      (multi_flag (er_multi c)
       || bool_decide (cell (graph w) (Z.to_nat (er_rel c)) (er_src c) (er_dest c)
                       = None))
      && match set_edge_of c w with
         | Done (_, w1) => single_finds_empty cs' w1
         | Fatal => true
         end
  end.

(** The cell a record inserts on. *)
Definition target (c : edge_rec) : nat * Z * Z :=
  (Z.to_nat (er_rel c), er_src c, er_dest c).

(** The ids a load inserts on a cell, in the order of the calls. *)
Definition ids_on (r : nat) (s d : Z) (cs : list edge_rec) : list Z :=
  er_id <$> filter (on_cell r s d) cs.

(** The record is an edge of relation type [r]. *)
Definition of_type (r : nat) (c : edge_rec) : Prop := Z.to_nat (er_rel c) = r.

#[export] Instance of_type_dec r c : Decision (of_type r c).
Proof. unfold of_type. apply _. Defined.

(** One increment of a [uint64_t] counter. *)
Definition inc_count (c : Z) : Z := (c + 1) mod UINT64_MOD.

(** One round of the label loop: the diagonal bit of [id] in the matrix
    of label [l]. *)
Definition label_write (id : Z) (ls : list (RG_Matrix bool)) (l : Z)
  : list (RG_Matrix bool) :=
  alter (fun R => set_rg_matrix (<[(id, id) := true]> (rg_matrix R)) R)
        (Z.to_nat l) ls.

(** The label matrices after the label loop over [L]. *)
Definition labels_written (id : Z) (ls : list (RG_Matrix bool)) (L : list Z)
  : list (RG_Matrix bool) :=
  foldl (label_write id) ls L.

(** The diagonal entry of label matrix [j] at node [k]. *)
Definition label_bit (g : Graph) (j : nat) (k : Z) : option bool :=
  from_option rg_matrix ∅ (labels g !! j) !! (k, k).

(** The entry of the node-label matrix at row [k], column [j]. *)
Definition node_label_bit (g : Graph) (k j : Z) : option bool :=
  rg_matrix (node_labels g) !! (k, j).

(** The body of the label loop of [Serializer_Graph_SetNode]. *)
Definition SetNode_round (id : Z) (labels : list Z) (i : Z) : prog unit :=
  label ← array_arg labels i;
  M ← Graph_GetLabelMatrix label;
  let m := RG_MATRIX_M M in
  _ ← GrB_Matrix_setElement_BOOL m true id id;
  mret tt.

(** What [Serializer_Graph_SetNode] makes of the graph. *)
Definition node_set (id : Z) (L : list Z) (g : Graph) : Graph :=
  set_labels (labels_written id (labels g) L) (set_nodes (fresh_slot (nodes g) id) g).

(** The body of the projection loop of [Serializer_Graph_SetNodeLabels]. *)
Definition project_round (i : Z) (v : GrB_Vector) : prog GrB_Vector :=
  M ← Graph_GetLabelMatrix i;
  let m := RG_MATRIX_M M in
  '(_, v) ← GxB_Vector_diag v m;
  _ ← GxB_Col_subassign (RG_MATRIX_M node_labels_ref) v i;
  mret v.

(** The record is node [k] and lists label [j]. *)
Definition has_label (k : Z) (j : nat) (c : node_rec) : Prop :=
  nr_id c = k /\ Z.of_nat j ∈ nr_labels c.

#[export] Instance has_label_dec k j c : Decision (has_label k j c).
Proof. unfold has_label. apply _. Defined.

(** Every label id of the record has a matrix. *)
Definition labels_known (g : Graph) (c : node_rec) : Prop :=
  Forall (fun l => index_ok l (labels g) = true) (nr_labels c).

(** A graph with no entities and empty matrices, and a world around it;
    the examples start from these. *)
Definition Graph_empty (nlabels nrels : nat) : Graph :=
  mkGraph (mkDataBlock ∅ []) (mkDataBlock ∅ []) RG_empty
          (replicate nlabels RG_empty) RG_empty
          (replicate nrels RG_empty) (mkStats (replicate nrels 0)).

(** The world of a fresh process around an empty graph. *)
Definition World_init (nlabels nrels : nat) : World :=
  mkWorld (Graph_empty nlabels nrels) ∅ 4096 [] [].

(** The same, with an allocator that moves the first block it is asked to
    grow. *)
Definition World_moving (nlabels nrels : nat) : World :=
  mkWorld (Graph_empty nlabels nrels) ∅ 4096 [true] [].

(** The world a run ends in, if it ends. *)
Definition final_world {A} (o : outcome (A * World)) : option World :=
  match o with Done (_, w) => Some w | Fatal => None end.

(** What an observer sees of the world a run ends in. *)
Definition after {A B} (p : prog A) (w : World) (f : World -> B) : option B :=
  f <$> final_world (p w).

(** The scenario of the specification: two labelled nodes, the
    projection, one edge through the single-edge routine ... *)
Definition scenario_single : prog unit :=
  Serializer_Graph_SetNode 0 [0] 1 blank_node;;
  Serializer_Graph_SetNode 1 [1] 1 blank_node;;
  Serializer_Graph_SetNodeLabels;;
  Serializer_Graph_SetEdge 0 10 0 1 0 blank_edge;;
  mret tt.

(** ... and a parallel one through the multi-edge routine. *)
Definition scenario_multi : prog unit :=
  scenario_single;;
  Serializer_Graph_SetEdge 1 11 0 1 0 blank_edge;;
  mret tt.

(** Three parallel edges of type 0 from node 0 to node 1, through the
    multi-edge routine. *)
Definition three_parallel : list edge_rec :=
  [mkEdgeRec 1 10 0 1 0; mkEdgeRec 1 11 0 1 0; mkEdgeRec 1 12 0 1 0].

(** A single-edge insertion, a parallel multi-edge one and one in the
    opposite direction. *)
Definition mixed_load : list edge_rec :=
  [mkEdgeRec 0 10 0 1 0; mkEdgeRec 1 11 0 1 0; mkEdgeRec 1 12 1 0 0].

(** A world with one relation type in which the seventh matrix write to
    come reports failure; the six before it succeed. *)
Definition failing_forward_write : World :=
  mkWorld (Graph_empty 0 1) ∅ 4096 []
          [false; false; false; false; false; false; true].

(** Two parallel edges from node 0 to node 1 through the multi-edge
    routine. *)
Definition two_parallel : list edge_rec :=
  [mkEdgeRec 1 10 0 1 0; mkEdgeRec 1 11 0 1 0].

(** The same, then a third on the same pair through the single-edge
    routine. *)
Definition revert_load : list edge_rec :=
  two_parallel ++ [mkEdgeRec 0 12 0 1 0].

(** An edge between two other nodes through the single-edge routine, then
    one more parallel edge from node 0 to node 1. *)
Definition single_elsewhere : list edge_rec :=
  [mkEdgeRec 0 12 2 3 0; mkEdgeRec 1 13 0 1 0].

(** A world whose relation cell already refers to a full block of two
    ids, with an allocator that moves the block when it grows. *)
Definition World_two_parallel : World :=
  mkWorld
    (mkGraph (mkDataBlock ∅ []) (mkDataBlock ∅ []) RG_empty [] RG_empty
             [mkRG {[ (0, 1) := SET_MSB 4096 ]} {[ (1, 0) := SET_MSB 4096 ]}]
             (mkStats [2]))
    {[ 4096 := mkArray 2 [10; 11] ]} 4112 [true] [].

(** Every matrix of the graph and the statistics are the same. *)
Definition same_topology (g g' : Graph) : Prop :=
  adjacency_matrix g' = adjacency_matrix g /\
  labels g' = labels g /\
  node_labels g' = node_labels g /\
  relations g' = relations g /\
  stats g' = stats g.

(** The node phase of a load: the node records, then one projection. *)
Definition node_phase (cs : list node_rec) : prog unit :=
  load_nodes cs;; Serializer_Graph_SetNodeLabels.

(** Node 0 with label 0 and node 1 with label 1. *)
Definition two_nodes : list node_rec := [mkNodeRec 0 [0]; mkNodeRec 1 [1]].

(** A world whose node and edge blocks hold a deleted slot with stale
    property data at id 7. *)
Definition World_stale_slots : World :=
  mkWorld
    (mkGraph (mkDataBlock {[ 7 := mkItem true (mkEntity 3 8192) ]} [7])
             (mkDataBlock {[ 7 := mkItem true (mkEntity 5 8208) ]} [7])
             RG_empty [RG_empty] RG_empty [RG_empty] (mkStats [0]))
    ∅ 4096 [] [].

(** One step of reading a load back: a multi-edge insertion on the cell
    appends its id, a single-edge insertion on the cell leaves its id
    alone, an insertion elsewhere changes nothing. *)
Definition replay_step (r : nat) (s d : Z) (acc : list Z) (c : edge_rec) : list Z :=
  if decide (on_cell r s d c)
  then (if multi_flag (er_multi c) then acc else []) ++ [er_id c]
  else acc.

(** The enumeration of a cell after a load, from the one before it. *)
Definition replay (r : nat) (s d : Z) (acc : list Z) (cs : list edge_rec) : list Z :=
  foldl (replay_step r s d) acc cs.

(** The record with its flag replaced. *)
Definition with_flag (f : Z) (c : edge_rec) : edge_rec :=
  mkEdgeRec f (er_id c) (er_src c) (er_dest c) (er_rel c).

(** The ordered pair a record connects. *)
Definition ends (c : edge_rec) : Z * Z := (er_src c, er_dest c).

(** One edge from node 0 to node 1 and one back. *)
Definition there_and_back : list edge_rec :=
  [mkEdgeRec 1 10 0 1 0; mkEdgeRec 1 12 1 0 0].

(** The world with the forward node-label matrix replaced. *)
Definition project_to (NL : gmap (Z * Z) bool) (w : World) : World :=
  upd_graph (fun g => set_node_labels (set_rg_matrix NL (node_labels g)) g) w.

(** A world with two labels, node 0 carrying label 0 and node 1 label 1,
    whose node-label matrix holds an entry that no label matrix backs and
    an entry in a column beyond the labels. *)
Definition World_stale_labels : World :=
  mkWorld
    (mkGraph (mkDataBlock ∅ []) (mkDataBlock ∅ []) RG_empty
             [mkRG {[ (0, 0) := true ]} ∅; mkRG {[ (1, 1) := true ]} ∅]
             (mkRG {[ (0, 1) := true; (5, 7) := true ]} ∅)
             [] (mkStats []))
    ∅ 4096 [] [].

(** The world with other answers in store for the library calls to come. *)
Definition with_faults (fl : list bool) (w : World) : World :=
  mkWorld (graph w) (arrays w) (brk w) (realloc_moves w) fl.

(** The labels whose matrix write goes through, given what the writes to
    come report. *)
Fixpoint unfailed (fl : list bool) (L : list Z) {struct L} : list Z :=
  match L with
  | [] => []
  | l :: L' =>
      match fl with
      | [] => l :: L'
      | failed :: fl' =>
          if (failed : bool) then unfailed fl' L' else l :: unfailed fl' L'
      end
  end.

(** The diagonal bit of node [id] set in a label matrix. *)
Definition mark_node (id : Z) (R : RG_Matrix bool) : RG_Matrix bool :=
  set_rg_matrix (<[(id, id) := true]> (rg_matrix R)) R.

(** A world in which the first matrix write to come fails and the second
    succeeds. *)
Definition World_first_write_fails : World :=
  mkWorld (Graph_empty 2 1) ∅ 4096 [] [true; false].

(** What the library answers to its [n]-th call to come: whether it
    reports failure. *)
Definition answer (fl : list bool) (n : nat) : bool := default false (fl !! n).

(** The vector of the projection loop after [t] rounds that started at
    label [i] with the vector [u], the label matrices being [ls] and [fl]
    holding two answers per round (diagonal extraction, then column
    write): a round whose diagonal extraction reports failure leaves the
    vector of the round before. *)
Fixpoint vector_after (fl : list bool) (ls : list (RG_Matrix bool)) (i : Z)
    (u : gmap Z bool) (t : nat) : gmap Z bool :=
  match t with
  | O => u
  | S t' =>
      if answer fl (2 * t') then vector_after fl ls i u t'
      else diag_entries
             (from_option rg_matrix ∅ (ls !! Z.to_nat (i + Z.of_nat t')))
  end.



(** The same world in which the creation of the vector reports failure. *)
Definition World_failing_vector : World :=
  with_faults [true; false] World_stale_labels.

(** * Properties *)

(** ** Tag arithmetic *)

Lemma MSB_MASK_val : MSB_MASK = 2 ^ 63.
Proof. reflexivity. Qed.

Lemma MSB_MASK_CMP_val : MSB_MASK_CMP = Z.ones 63.
Proof. reflexivity. Qed.

Lemma SINGLE_EDGE_testbit x :
  0 <= x -> SINGLE_EDGE x = negb (Z.testbit x 63).
Proof.
  intros Hx. unfold SINGLE_EDGE, MSB_MASK.
  destruct (Z.testbit x 63) eqn:Hb; simpl.
  - apply Z.eqb_neq. intros H0.
    assert (Hc : Z.testbit (Z.land x (Z.shiftl 1 63)) 63 = false)
      by (rewrite H0; apply Z.bits_0).
    rewrite Z.land_spec, Hb in Hc. discriminate.
  - apply Z.eqb_eq. apply Z.bits_inj'. intros n Hn.
    rewrite Z.land_spec, Z.bits_0, Z.shiftl_spec by lia.
    destruct (decide (n = 63)) as [->|Hne]; [by rewrite Hb|].
    replace (Z.testbit 1 (n - 63)) with false; [by rewrite andb_false_r|].
    destruct (decide (n < 63)).
    + by rewrite Z.testbit_neg_r by lia.
    + symmetry. apply (Z.bits_above_log2 1 (n - 63)); simpl; lia.
Qed.

Lemma small_testbit_63 x : 0 <= x < 2 ^ 63 -> Z.testbit x 63 = false.
Proof.
  intros [H0 H1]. destruct (decide (x = 0)) as [->|]; [apply Z.bits_0|].
  apply Z.bits_above_log2; [lia|]. apply Z.log2_lt_pow2; lia.
Qed.

Lemma SINGLE_EDGE_small x : 0 <= x < 2 ^ 63 -> SINGLE_EDGE x = true.
Proof.
  intros H. rewrite SINGLE_EDGE_testbit by lia.
  by rewrite small_testbit_63.
Qed.

Lemma SET_MSB_plus p : 0 <= p < 2 ^ 63 -> SET_MSB p = p + 2 ^ 63.
Proof.
  intros H. unfold SET_MSB. rewrite MSB_MASK_val.
  rewrite <- Z.add_nocarry_lor; [lia|].
  apply Z.bits_inj'. intros n Hn. rewrite Z.land_spec, Z.bits_0.
  destruct (decide (n = 63)) as [->|Hne].
  - by rewrite small_testbit_63.
  - rewrite (Z.pow2_bits_false 63 n) by lia. apply andb_false_r.
Qed.

Lemma SET_MSB_range p : 0 <= p < 2 ^ 63 -> 0 <= SET_MSB p < UINT64_MOD.
Proof. intros H. rewrite SET_MSB_plus by done. unfold UINT64_MOD. lia. Qed.

Lemma SET_MSB_tagged p : 0 <= p < 2 ^ 63 -> SINGLE_EDGE (SET_MSB p) = false.
Proof.
  intros H. pose proof (SET_MSB_range p H) as Hr.
  rewrite SINGLE_EDGE_testbit by lia.
  unfold SET_MSB. rewrite Z.lor_spec, MSB_MASK_val, Z.pow2_bits_true by lia.
  by rewrite orb_true_r.
Qed.

Lemma CLEAR_SET_MSB p : 0 <= p < 2 ^ 63 -> CLEAR_MSB (SET_MSB p) = p.
Proof.
  intros H. unfold CLEAR_MSB. rewrite MSB_MASK_CMP_val, Z.land_ones by lia.
  rewrite SET_MSB_plus by done.
  rewrite <- (Z.mul_1_l (2 ^ 63)) at 1. rewrite Z.mod_add by lia.
  apply Z.mod_small. lia.
Qed.

Lemma CLEAR_MSB_range x : 0 <= CLEAR_MSB x < 2 ^ 63.
Proof.
  unfold CLEAR_MSB. rewrite MSB_MASK_CMP_val, Z.land_ones by lia.
  apply Z.mod_pos_bound. lia.
Qed.

(** A tagged scalar is its payload with the tag put back. *)
Lemma SET_CLEAR_MSB x :
  0 <= x < UINT64_MOD -> SINGLE_EDGE x = false -> SET_MSB (CLEAR_MSB x) = x.
Proof.
  intros Hx Ht. rewrite SINGLE_EDGE_testbit in Ht by lia.
  apply negb_false_iff in Ht.
  rewrite SET_MSB_plus by apply CLEAR_MSB_range.
  unfold CLEAR_MSB. rewrite MSB_MASK_CMP_val, Z.land_ones by lia.
  assert (Hq : x / 2 ^ 63 = 1).
  { assert (x / 2 ^ 63 < 2)
      by (apply Z.div_lt_upper_bound; unfold UINT64_MOD in *; lia).
    assert (0 <= x / 2 ^ 63) by (apply Z.div_pos; lia).
    destruct (decide (x / 2 ^ 63 = 0)) as [Hz|]; [|lia].
    apply Z.div_small_iff in Hz; [|lia].
    rewrite small_testbit_63 in Ht by lia. discriminate. }
  pose proof (Z.div_mod x (2 ^ 63) ltac:(lia)) as Hdm.
  rewrite Hq in Hdm. lia.
Qed.

(** ** Running the two connection routines *)

Lemma rel_write_both (rels : list (RG_Matrix Z)) (r : nat) (k1 k2 : Z * Z) (x : Z) :
  alter (set_rg_transposed
           (<[k2 := x]> (from_option rg_transposed ∅
                           (alter (set_rg_matrix
                                    (<[k1 := x]> (from_option rg_matrix ∅ (rels !! r))))
                                  r rels !! r))))
        r (alter (set_rg_matrix (<[k1 := x]> (from_option rg_matrix ∅ (rels !! r))))
                 r rels)
  = alter (fun R => mkRG (<[k1 := x]> (rg_matrix R)) (<[k2 := x]> (rg_transposed R)))
          r rels.
Proof.
  rewrite list_alter_alter_eq. apply list_alter_ext; [|done].
  intros R HR. rewrite list_lookup_alter_eq, HR. done.
Qed.

Ltac prog_unfold :=
  unfold mbind, prog_bind, mret, prog_ret, ASSERT.

Lemma single_connect_run w s d id r :
  grb_faults w = [] ->
  index_ok r (relations (graph w)) = true ->
  index_ok r (edge_count (stats (graph w))) = true ->
  _OptimizedSingleEdgeFormConnection s d id r w
  = Done (tt, upd_graph (connect_effect s d id (Z.to_nat r)) w).
Proof.
  destruct w as [g h b mv fl]. simpl. intros -> Hr Hc.
  unfold _OptimizedSingleEdgeFormConnection, Graph_GetRelationMatrix,
    Graph_GetAdjacencyMatrix, GrB_Matrix_setElement_BOOL,
    GrB_Matrix_setElement_UINT64, GrB_Matrix_setElement, grb_next_fault,
    GraphStatistics_IncEdgeCount.
  prog_unfold. simpl. rewrite Hr. simpl. rewrite Hc.
  unfold upd_graph, connect_effect. simpl. rewrite rel_write_both. done.
Qed.

Lemma index_ok_lookup {A} (i : Z) (l : list A) :
  index_ok i l = true -> exists x, l !! Z.to_nat i = Some x.
Proof.
  unfold index_ok. intros H%bool_decide_eq_true.
  apply lookup_lt_is_Some. lia.
Qed.

Lemma cell_from_option g r s d :
  from_option rg_matrix ∅ (relations g !! r) !! (s, d) = cell g r s d.
Proof. unfold cell. destruct (relations g !! r); simpl; [done|apply lookup_empty]. Qed.

Ltac multi_unfold :=
  unfold _OptimizedMultiEdgeFormConnection, Graph_GetRelationMatrix,
    Graph_GetAdjacencyMatrix, GrB_Matrix_setElement_BOOL,
    GrB_Matrix_setElement_UINT64, GrB_Matrix_setElement, grb_next_fault,
    GrB_Matrix_extractElement, GraphStatistics_IncEdgeCount;
  prog_unfold.

Lemma multi_connect_run_absent w s d id r :
  grb_faults w = [] ->
  index_ok r (relations (graph w)) = true ->
  index_ok r (edge_count (stats (graph w))) = true ->
  cell (graph w) (Z.to_nat r) s d = None ->
  _OptimizedMultiEdgeFormConnection s d id r w
  = Done (tt, upd_graph (connect_effect s d id (Z.to_nat r)) w).
Proof.
  destruct w as [g h b mv fl]. simpl. intros -> Hr Hc Hcell.
  multi_unfold. simpl. rewrite Hr. simpl.
  rewrite cell_from_option, Hcell. simpl. rewrite Hc.
  unfold upd_graph, connect_effect. simpl. rewrite rel_write_both. done.
Qed.

Lemma multi_connect_run_single w s d id r x :
  grb_faults w = [] ->
  index_ok r (relations (graph w)) = true ->
  index_ok r (edge_count (stats (graph w))) = true ->
  cell (graph w) (Z.to_nat r) s d = Some x ->
  SINGLE_EDGE x = true ->
  brk w + BLOCK_STRIDE <= HEAP_END ->
  _OptimizedMultiEdgeFormConnection s d id r w
  = Done (tt, mkWorld (connect_effect s d (SET_MSB (brk w)) (Z.to_nat r) (graph w))
                      (<[brk w := mkArray 2 [x; id]]> (arrays w))
                      (brk w + BLOCK_STRIDE) (realloc_moves w) []).
Proof.
  destruct w as [g h b mv fl]. simpl. intros -> Hr Hc Hcell Hx Hmem.
  multi_unfold. simpl. rewrite Hr. simpl.
  rewrite cell_from_option, Hcell. simpl. rewrite Hx.
  unfold array_new, array_append, heap_alloc, heap_load, heap_store.
  prog_unfold. simpl.
  rewrite bool_decide_eq_true_2 by done. simpl.
  rewrite lookup_insert_eq. simpl.
  rewrite lookup_insert_eq. simpl.
  rewrite Hc. rewrite !insert_insert_eq.
  unfold upd_graph, connect_effect. simpl. rewrite rel_write_both. done.
Qed.

Lemma multi_connect_run_multi w s d id r x a :
  grb_faults w = [] ->
  index_ok r (relations (graph w)) = true ->
  index_ok r (edge_count (stats (graph w))) = true ->
  cell (graph w) (Z.to_nat r) s d = Some x ->
  SINGLE_EDGE x = false ->
  arrays w !! CLEAR_MSB x = Some a ->
  brk w + BLOCK_STRIDE <= HEAP_END ->
  exists p' c' b' mv',
    _OptimizedMultiEdgeFormConnection s d id r w
    = Done (tt, mkWorld (connect_effect s d (SET_MSB p') (Z.to_nat r) (graph w))
                        (<[p' := mkArray c' (arr_items a ++ [id])]>
                           (delete (CLEAR_MSB x) (arrays w)))
                        b' mv' [])
    /\ ((p' = CLEAR_MSB x /\ b' = brk w) \/ (p' = brk w /\ b' = brk w + BLOCK_STRIDE)).
Proof.
  destruct w as [g h b mv fl]. simpl. intros -> Hr Hc Hcell Hx Ha Hmem.
  multi_unfold. simpl. rewrite Hr. simpl.
  rewrite cell_from_option, Hcell. simpl. rewrite Hx.
  unfold array_append, heap_alloc, heap_load, heap_store, heap_free,
    realloc_next_move.
  prog_unfold. simpl. rewrite Ha. simpl.
  case_bool_decide; simpl.
  - eexists (CLEAR_MSB x), _, b, mv. split; [|by left].
    rewrite Hc. rewrite insert_delete_eq.
    unfold upd_graph, connect_effect. simpl. rewrite rel_write_both. done.
  - destruct mv as [|[] mv]; simpl.
    + eexists (CLEAR_MSB x), _, b, []. split; [|by left].
      rewrite Hc. rewrite insert_delete_eq.
      unfold upd_graph, connect_effect. simpl. rewrite rel_write_both. done.
    + rewrite bool_decide_eq_true_2 by done. simpl.
      eexists b, _, (b + BLOCK_STRIDE), mv. split; [|by right].
      rewrite Hc.
      unfold upd_graph, connect_effect. simpl. rewrite rel_write_both. done.
    + eexists (CLEAR_MSB x), _, b, mv. split; [|by left].
      rewrite Hc. rewrite insert_delete_eq.
      unfold upd_graph, connect_effect. simpl. rewrite rel_write_both. done.
Qed.

(** ** Well-formed worlds and what a connection does to them *)

Lemma cell_connect_effect g s d x r r' s' d' :
  (r < length (relations g))%nat ->
  cell (connect_effect s d x r g) r' s' d'
  = if decide ((r', s', d') = (r, s, d)) then Some x else cell g r' s' d'.
Proof.
  intros Hr. unfold cell, connect_effect. simpl.
  rewrite list_lookup_alter.
  destruct (lookup_lt_is_Some_2 _ _ Hr) as [R HR].
  destruct (decide (r = r')) as [<-|Hne].
  - rewrite HR. simpl. rewrite lookup_insert.
    repeat case_decide; simplify_eq; done.
  - case_decide; simplify_eq; done.
Qed.

Lemma cell_T_connect_effect g s d x r r' s' d' :
  (r < length (relations g))%nat ->
  cell_T (connect_effect s d x r g) r' d' s'
  = if decide ((r', s', d') = (r, s, d)) then Some x else cell_T g r' d' s'.
Proof.
  intros Hr. unfold cell_T, connect_effect. simpl.
  rewrite list_lookup_alter.
  destruct (lookup_lt_is_Some_2 _ _ Hr) as [R HR].
  destruct (decide (r = r')) as [<-|Hne].
  - rewrite HR. simpl. rewrite lookup_insert.
    repeat case_decide; simplify_eq; done.
  - case_decide; simplify_eq; done.
Qed.

Lemma wf_connect w s d x' r h' b' mv' fl' :
  wf w ->
  (r < length (relations (graph w)))%nat ->
  0 <= x' < UINT64_MOD ->
  brk w <= b' <= HEAP_END ->
  (forall p a, h' !! p = Some a -> 0 < p < b') ->
  (SINGLE_EDGE x' = false ->
   exists a, h' !! CLEAR_MSB x' = Some a /\ (2 <= length (arr_items a))%nat) ->
  heap_frame w r s d h' x' ->
  wf (mkWorld (connect_effect s d x' r (graph w)) h' b' mv' fl').
Proof.
  intros Hwf Hr Hx Hb Hh Ht Hfr.
  destruct Hwf as [Wb Wh Wc Wm Ws Wst Wa].
  split; simpl.
  - lia.
  - done.
  - intros r2 s2 d2 x2. rewrite cell_connect_effect by done.
    case_decide as Heq; intros Hc.
    + by simplify_eq.
    + destruct (Wc _ _ _ _ Hc) as [Hrange Hmul]. split; [done|].
      intros Hx2. destruct (Hfr _ _ _ _ Heq Hc Hx2) as [-> _]. by apply Hmul.
  - intros r2 s2 d2.
    rewrite cell_connect_effect, cell_T_connect_effect by done.
    case_decide; [done|apply Wm].
  - intros r1 s1 d1 x1 r2 s2 d2 x2.
    rewrite !cell_connect_effect by done.
    case_decide as E1; case_decide as E2; intros H1 H2 T1 T2 Hp; simplify_eq.
    + done.
    + destruct (Hfr _ _ _ _ E2 H2 T2) as [_ Hne]. by destruct (Hne T1).
    + destruct (Hfr _ _ _ _ E1 H1 T1) as [_ Hne]. by destruct (Hne T2).
    + eapply Ws; eauto.
  - unfold connect_effect. simpl. rewrite !length_alter. done.
  - intros s2 d2. unfold connect_effect. simpl.
    rewrite !lookup_insert.
    repeat case_decide; simplify_eq; first [done | apply Wa].
Qed.

Lemma between_connect_other w s d x' r h' b' mv' fl' r2 s2 d2 :
  (r < length (relations (graph w)))%nat ->
  heap_frame w r s d h' x' ->
  (r2, s2, d2) <> (r, s, d) ->
  edges_between (mkWorld (connect_effect s d x' r (graph w)) h' b' mv' fl') r2 s2 d2
  = edges_between w r2 s2 d2.
Proof.
  intros Hr Hfr Hne. unfold edges_between. simpl.
  rewrite cell_connect_effect by done. rewrite decide_False by done.
  destruct (cell (graph w) r2 s2 d2) as [x2|] eqn:Hc; [|done]. simpl.
  unfold cell_ids. destruct (SINGLE_EDGE x2) eqn:Hx2; [done|].
  by destruct (Hfr _ _ _ _ Hne Hc Hx2) as [-> _].
Qed.

Lemma between_connect_target w s d x' r h' b' mv' fl' :
  (r < length (relations (graph w)))%nat ->
  edges_between (mkWorld (connect_effect s d x' r (graph w)) h' b' mv' fl') r s d
  = cell_ids h' x'.
Proof.
  intros Hr. unfold edges_between. simpl.
  rewrite cell_connect_effect by done. by rewrite decide_True.
Qed.

Lemma connected_intro (multi : bool) id s d r w x' (h' : gmap Z array) b' mv' :
  wf w ->
  (r < length (relations (graph w)))%nat ->
  0 <= x' < UINT64_MOD ->
  brk w <= b' <= brk w + BLOCK_STRIDE ->
  b' <= HEAP_END ->
  (forall p a, h' !! p = Some a -> 0 < p < b') ->
  (SINGLE_EDGE x' = false ->
   exists a, h' !! CLEAR_MSB x' = Some a /\ (2 <= length (arr_items a))%nat) ->
  heap_frame w r s d h' x' ->
  cell_ids h' x' = (if multi then edges_between w r s d else []) ++ [id] ->
  tag_level (Some x')
  = (if multi then Nat.min 2 (S (tag_level (cell (graph w) r s d))) else 1%nat) ->
  (multi = false \/ cell (graph w) r s d = None -> x' = id) ->
  (multi = true -> is_Some (cell (graph w) r s d) ->
   exists p a, x' = SET_MSB p /\ 0 < p < HEAP_END /\ h' !! p = Some a /\
               arr_items a = edges_between w r s d ++ [id] /\
               (forall q (b : array), q <> p -> h' !! q = Some b -> arrays w !! q = Some b)) ->
  connected multi id s d r (edges (graph w)) w
    (mkWorld (connect_effect s d x' r (graph w)) h' b' mv' []).
Proof.
  intros Hwf Hr Hx Hb Hend Hh Ht Hfr Hids Hlvl Hplain Hshared.
  split; simpl; try done.
  - apply wf_connect; try done. lia.
  - unfold connect_effect; simpl. by rewrite length_alter.
  - intros r2 s2 d2 Hne. rewrite cell_connect_effect by done.
    by rewrite decide_False.
  - intros r2 s2 d2 Hne. by apply between_connect_other.
  - by rewrite between_connect_target.
  - rewrite cell_connect_effect by done. by rewrite decide_True.
  - intros Hc. rewrite cell_connect_effect by done. rewrite decide_True by done.
    f_equal. by apply Hplain.
  - intros Hm Hc. destruct (Hshared Hm Hc) as (p & a & -> & Hp & Ha & Hi & Ho).
    exists p, a. rewrite cell_connect_effect, cell_T_connect_effect by done.
    rewrite !decide_True by done. done.
Qed.

Lemma index_ok_lt {A} (i : Z) (l : list A) :
  index_ok i l = true -> (Z.to_nat i < length l)%nat.
Proof. unfold index_ok. intros H%bool_decide_eq_true. lia. Qed.

Lemma index_ok_stats w r :
  wf w -> index_ok r (relations (graph w)) = true ->
  index_ok r (edge_count (stats (graph w))) = true.
Proof. intros Hwf. unfold index_ok. by rewrite (wf_stats _ Hwf). Qed.

Lemma heap_frame_same w r s d x' :
  SINGLE_EDGE x' = true -> heap_frame w r s d (arrays w) x'.
Proof. intros Hx r2 s2 d2 x2 _ _ _. split; [done|]. by rewrite Hx. Qed.

Lemma connected_plain (multi : bool) id s d r w :
  wf w ->
  grb_faults w = [] ->
  (r < length (relations (graph w)))%nat ->
  0 <= id < 2 ^ 63 ->
  (multi = false \/ cell (graph w) r s d = None) ->
  connected multi id s d r (edges (graph w)) w
            (upd_graph (connect_effect s d id r) w).
Proof.
  intros Hwf Hfl Hr Hid Hc.
  pose proof (SINGLE_EDGE_small _ Hid) as Hs.
  pose proof (wf_brk _ Hwf) as Hb.
  unfold upd_graph. rewrite Hfl.
  apply connected_intro; try done.
  - unfold UINT64_MOD. lia.
  - unfold BLOCK_STRIDE. lia.
  - lia.
  - apply (wf_heap _ Hwf).
  - by rewrite Hs.
  - by apply heap_frame_same.
  - unfold cell_ids. rewrite Hs. unfold edges_between.
    destruct Hc as [->|Hn]; [done|]. rewrite Hn. by destruct multi.
  - simpl. rewrite Hs. destruct Hc as [->|Hn]; [done|]. rewrite Hn.
    by destruct multi.
  - intros Hm [x Hx]. destruct Hc as [->| Hn]; [done|congruence].
Qed.

Lemma connected_grow id s d r w x :
  wf w ->
  (r < length (relations (graph w)))%nat ->
  cell (graph w) r s d = Some x ->
  SINGLE_EDGE x = true ->
  brk w + BLOCK_STRIDE <= HEAP_END ->
  connected true id s d r (edges (graph w)) w
    (mkWorld (connect_effect s d (SET_MSB (brk w)) r (graph w))
             (<[brk w := mkArray 2 [x; id]]> (arrays w))
             (brk w + BLOCK_STRIDE) (realloc_moves w) []).
Proof.
  intros Hwf Hr Hc Hx Hmem.
  pose proof (wf_brk _ Hwf) as Hb.
  assert (Hp : 0 <= brk w < 2 ^ 63) by (unfold HEAP_END, BLOCK_STRIDE in *; lia).
  assert (Hold : edges_between w r s d = [x]).
  { unfold edges_between. rewrite Hc. simpl. unfold cell_ids. by rewrite Hx. }
  apply connected_intro; try done.
  - by apply SET_MSB_range.
  - unfold BLOCK_STRIDE. lia.
  - intros p a. rewrite lookup_insert. case_decide as Hpb.
    + intros _. subst p. unfold BLOCK_STRIDE. lia.
    + intros Ha. pose proof (wf_heap _ Hwf _ _ Ha). unfold BLOCK_STRIDE. lia.
  - intros _. rewrite CLEAR_SET_MSB by done. rewrite lookup_insert_eq.
    eexists. split; [done|]. simpl. lia.
  - intros r2 s2 d2 x2 Hne Hc2 Hx2.
    destruct (wf_cells _ Hwf _ _ _ _ Hc2) as [_ Hm].
    destruct (Hm Hx2) as (a & Ha & _).
    pose proof (wf_heap _ Hwf _ _ Ha) as Hlt.
    rewrite CLEAR_SET_MSB by done.
    split; [|lia]. rewrite lookup_insert_ne by lia. done.
  - unfold cell_ids. rewrite SET_MSB_tagged, CLEAR_SET_MSB by done.
    rewrite lookup_insert_eq. simpl. by rewrite Hold.
  - simpl. rewrite SET_MSB_tagged by done. rewrite Hc. simpl. by rewrite Hx.
  - intros [?|Hn]; [done|congruence].
  - intros _ _. exists (brk w), (mkArray 2 [x; id]).
    split; [done|]. split; [unfold HEAP_END; lia|].
    rewrite lookup_insert_eq. split; [done|]. split; [by rewrite Hold|].
    intros q b Hq. by rewrite lookup_insert_ne.
Qed.

Lemma connected_extend id s d r w x a p' c' b' mv' :
  wf w ->
  (r < length (relations (graph w)))%nat ->
  cell (graph w) r s d = Some x ->
  SINGLE_EDGE x = false ->
  arrays w !! CLEAR_MSB x = Some a ->
  brk w + BLOCK_STRIDE <= HEAP_END ->
  (p' = CLEAR_MSB x /\ b' = brk w) \/ (p' = brk w /\ b' = brk w + BLOCK_STRIDE) ->
  connected true id s d r (edges (graph w)) w
    (mkWorld (connect_effect s d (SET_MSB p') r (graph w))
             (<[p' := mkArray c' (arr_items a ++ [id])]>
                (delete (CLEAR_MSB x) (arrays w)))
             b' mv' []).
Proof.
  intros Hwf Hr Hc Hx Ha Hmem Hcase.
  pose proof (wf_brk _ Hwf) as Hb.
  pose proof (wf_heap _ Hwf _ _ Ha) as Hpold.
  assert (Hp : 0 < p' < 2 ^ 63 /\ p' < b' /\ brk w <= b' <= brk w + BLOCK_STRIDE).
  { clear Ha. unfold HEAP_END, BLOCK_STRIDE in *. revert Hpold Hcase.
    generalize (CLEAR_MSB x). intros p Hpold [[-> ->]|[-> ->]]; repeat split; lia. }
  destruct Hp as (Hp & Hpb & Hbb).
  assert (Hold : edges_between w r s d = arr_items a).
  { unfold edges_between. rewrite Hc. simpl. unfold cell_ids. by rewrite Hx, Ha. }
  apply connected_intro; try done.
  - apply SET_MSB_range. lia.
  - lia.
  - intros p a0. rewrite lookup_insert. case_decide as Hpp.
    + intros _. subst p. lia.
    + intros [_ Hl]%lookup_delete_Some.
      pose proof (wf_heap _ Hwf _ _ Hl). lia.
  - intros _. rewrite CLEAR_SET_MSB by lia. rewrite lookup_insert_eq.
    eexists. split; [done|]. simpl. rewrite length_app. simpl.
    destruct (wf_cells _ Hwf _ _ _ _ Hc) as [_ Hm].
    destruct (Hm Hx) as (a0 & Ha0 & Hlen). simplify_eq. lia.
  - intros r2 s2 d2 x2 Hne Hc2 Hx2.
    destruct (wf_cells _ Hwf _ _ _ _ Hc2) as [_ Hm].
    destruct (Hm Hx2) as (a2 & Ha2 & _).
    pose proof (wf_heap _ Hwf _ _ Ha2) as Hlt.
    assert (Hnp : CLEAR_MSB x2 <> CLEAR_MSB x).
    { intros Heq. apply Hne. eapply (wf_sep _ Hwf); eauto. }
    assert (Hnp' : CLEAR_MSB x2 <> p') by (destruct Hcase as [[-> _]|[-> _]]; lia).
    rewrite CLEAR_SET_MSB by lia.
    split; [|done]. rewrite lookup_insert_ne, lookup_delete_ne by done. done.
  - unfold cell_ids. rewrite SET_MSB_tagged, CLEAR_SET_MSB by lia.
    rewrite lookup_insert_eq. simpl. by rewrite Hold.
  - simpl. rewrite SET_MSB_tagged by lia. rewrite Hc. simpl. by rewrite Hx.
  - intros [?|Hn]; [done|congruence].
  - intros _ _. eexists p', _.
    split; [done|]. split; [unfold HEAP_END; lia|].
    rewrite lookup_insert_eq. split; [done|]. split; [by rewrite Hold|].
    intros q b Hq. rewrite lookup_insert_ne by done.
    by intros [_ ?]%lookup_delete_Some.
Qed.

Lemma connect_single_ok w s d id r :
  wf w ->
  grb_faults w = [] ->
  index_ok r (relations (graph w)) = true ->
  0 <= id < 2 ^ 63 ->
  exists w',
    _OptimizedSingleEdgeFormConnection s d id r w = Done (tt, w') /\
    connected false id s d (Z.to_nat r) (edges (graph w)) w w'.
Proof.
  intros Hwf Hfl Hr Hid. eexists. split.
  - apply single_connect_run; auto using index_ok_stats.
  - apply connected_plain; auto using index_ok_lt.
Qed.

Lemma connect_multi_ok w s d id r :
  wf w ->
  grb_faults w = [] ->
  index_ok r (relations (graph w)) = true ->
  0 <= id < 2 ^ 63 ->
  brk w + BLOCK_STRIDE <= HEAP_END ->
  exists w',
    _OptimizedMultiEdgeFormConnection s d id r w = Done (tt, w') /\
    connected true id s d (Z.to_nat r) (edges (graph w)) w w'.
Proof.
  intros Hwf Hfl Hr Hid Hmem.
  pose proof (index_ok_stats _ _ Hwf Hr) as Hst.
  pose proof (index_ok_lt _ _ Hr) as Hlt.
  destruct (cell (graph w) (Z.to_nat r) s d) as [x|] eqn:Hc.
  - destruct (SINGLE_EDGE x) eqn:Hx.
    + eexists. split; [by eapply multi_connect_run_single|].
      by apply connected_grow.
    + destruct (wf_cells _ Hwf _ _ _ _ Hc) as [_ Hm].
      destruct (Hm Hx) as (a & Ha & _).
      destruct (multi_connect_run_multi w s d id r x a)
        as (p' & c' & b' & mv' & Hrun & Hcase); try done.
      eexists. split; [exact Hrun|].
      by eapply connected_extend.
  - eexists. split; [by apply multi_connect_run_absent|].
    apply connected_plain; auto.
Qed.

(** ** Edge creation and loads *)

Lemma alloc_then_init db id :
  item_liveb db id = false ->
  exists db1,
    DataBlock_AllocateItemOutOfOrder db id = Done (db1, id) /\
    Entity_write (set_properties NULL) (Entity_write (set_prop_count 0) db1 id) id
    = fresh_slot db id.
Proof.
  unfold item_liveb, DataBlock_AllocateItemOutOfOrder, Entity_write, fresh_slot.
  destruct (items db !! id) as [[[] e]|] eqn:Hl; simpl; intros Hlive; try done.
  all: eexists; split; [done|]; simpl; by rewrite !alter_insert_eq.
Qed.

Lemma alloc_live_fatal db id :
  item_liveb db id = true -> DataBlock_AllocateItemOutOfOrder db id = Fatal.
Proof.
  unfold item_liveb, DataBlock_AllocateItemOutOfOrder.
  destruct (items db !! id) as [[[] e]|]; simpl; done.
Qed.

Lemma SetEdge_run multi id s d r e w :
  item_liveb (edges (graph w)) id = false ->
  Serializer_Graph_SetEdge multi id s d r e w
  = match connect_by multi s d id r
            (upd_graph (set_edges (fresh_slot (edges (graph w)) id)) w) with
    | Done (_, w') => Done (mkEdge id id r s d, w')
    | Fatal => Fatal
    end.
Proof.
  intros Hl. destruct (alloc_then_init _ _ Hl) as (db1 & Ha & Hi).
  unfold Serializer_Graph_SetEdge, alloc_edge, on_edges, connect_by.
  prog_unfold. rewrite Ha. destruct w as [g h b mv fl]. simpl.
  unfold upd_graph, set_edges. simpl. rewrite Hi.
  reflexivity.
Qed.

Lemma wf_set_edges w E : wf w -> wf (upd_graph (set_edges E) w).
Proof. intros [? ? ? ? ? ? ?]. split; done. Qed.

Lemma connected_set_edges m id s d r E w w' :
  connected m id s d r E (upd_graph (set_edges E) w) w' ->
  connected m id s d r E w w'.
Proof. intros [? ? ? ? ? ? ? ? ? ? ? ? ? ? ? ?]. split; done. Qed.

Lemma SetEdge_ok multi id s d r e w :
  wf w ->
  grb_faults w = [] ->
  item_liveb (edges (graph w)) id = false ->
  index_ok r (relations (graph w)) = true ->
  0 <= id < 2 ^ 63 ->
  brk w + BLOCK_STRIDE <= HEAP_END ->
  exists w',
    Serializer_Graph_SetEdge multi id s d r e w = Done (mkEdge id id r s d, w') /\
    connected (multi_flag multi) id s d (Z.to_nat r)
              (fresh_slot (edges (graph w)) id) w w'.
Proof.
  intros Hwf Hfl Hlive Hr Hid Hmem.
  rewrite SetEdge_run by done. unfold connect_by, multi_flag.
  set (w1 := upd_graph (set_edges (fresh_slot (edges (graph w)) id)) w).
  assert (Hwf1 : wf w1) by by apply wf_set_edges.
  case_bool_decide.
  - destruct (connect_multi_ok w1 s d id r) as (w' & -> & Hc); try done.
    exists w'. split; [done|]. by apply connected_set_edges.
  - destruct (connect_single_ok w1 s d id r) as (w' & -> & Hc); try done.
    exists w'. split; [done|]. by apply connected_set_edges.
Qed.

Lemma item_liveb_fresh_ne db id k :
  k <> id -> item_liveb (fresh_slot db id) k = item_liveb db k.
Proof. intros. unfold item_liveb, fresh_slot. simpl. by rewrite lookup_insert_ne. Qed.

Lemma load_pre_step c cs w w1 :
  load_pre w (c :: cs) ->
  connected (multi_flag (er_multi c)) (er_id c) (er_src c) (er_dest c)
            (Z.to_nat (er_rel c)) (fresh_slot (edges (graph w)) (er_id c)) w w1 ->
  load_pre w1 cs.
Proof.
  intros [Hwf Hfl Hrel Hid Hnew Hnd Hmem] Hc.
  apply Forall_cons in Hrel as [_ Hrel]. apply Forall_cons in Hid as [_ Hid].
  apply Forall_cons in Hnew as [_ Hnew].
  rewrite fmap_cons in Hnd. apply NoDup_cons in Hnd as [Hni Hnd].
  split; try done.
  - apply (cn_wf _ _ _ _ _ _ _ _ Hc).
  - apply (cn_faults _ _ _ _ _ _ _ _ Hc).
  - eapply Forall_impl; [exact Hrel|]. intros c'. unfold index_ok.
    by rewrite (cn_rels _ _ _ _ _ _ _ _ Hc).
  - rewrite Forall_forall in Hnew. apply Forall_forall. intros c' Hin.
    rewrite (cn_edges _ _ _ _ _ _ _ _ Hc).
    rewrite item_liveb_fresh_ne; [by apply Hnew|].
    intros Heq. apply Hni. rewrite <- Heq. by apply list_elem_of_fmap_2.
  - pose proof (cn_brk _ _ _ _ _ _ _ _ Hc). simpl in Hmem.
    unfold BLOCK_STRIDE in *. lia.
Qed.

Lemma load_edges_ok cs : forall w,
  load_pre w cs ->
  exists w', load_edges cs w = Done (tt, w') /\ loads cs w w'.
Proof.
  induction cs as [|c cs IH]; intros w Hpre.
  - exists w. split; [done|constructor].
  - pose proof Hpre as [Hwf Hfl Hrel Hid Hnew Hnd Hmem].
    apply Forall_cons in Hrel as [Hr _]. apply Forall_cons in Hid as [Hi _].
    apply Forall_cons in Hnew as [Hn _].
    destruct (SetEdge_ok (er_multi c) (er_id c) (er_src c) (er_dest c) (er_rel c)
                blank_edge w) as (w1 & Hrun & Hc); try done.
    { simpl in Hmem. unfold BLOCK_STRIDE in *. lia. }
    destruct (IH w1 (load_pre_step _ _ _ _ Hpre Hc)) as (w' & Hrun' & Hl).
    exists w'. split; [|by econstructor].
    simpl. unfold set_edge_of. prog_unfold. by rewrite Hrun.
Qed.

(** ** What a load leaves behind *)

Lemma on_cell_target r s d c : on_cell r s d c <-> (r, s, d) = target c.
Proof.
  unfold on_cell, target. split.
  - by intros (<- & <- & <-).
  - by intros [= -> -> ->].
Qed.

Lemma loads_wf cs w w' : loads cs w w' -> wf w -> wf w'.
Proof.
  induction 1 as [|c cs w w1 w' Hc _ IH]; [done|].
  intros _. apply IH, (cn_wf _ _ _ _ _ _ _ _ Hc).
Qed.

Lemma loads_between_multi cs w w' :
  loads cs w w' ->
  Forall (fun c => er_multi c <> 0) cs ->
  forall r s d, edges_between w' r s d = edges_between w r s d ++ ids_on r s d cs.
Proof.
  induction 1 as [w|c cs w w1 w' Hc _ IH]; intros Hm r s d.
  - unfold ids_on. simpl. by rewrite app_nil_r.
  - apply Forall_cons in Hm as [Hmc Hm].
    assert (Hf : multi_flag (er_multi c) = true)
      by (unfold multi_flag; by apply bool_decide_eq_true_2).
    rewrite Hf in Hc. rewrite (IH Hm). unfold ids_on.
    destruct (decide (on_cell r s d c)) as [Hon|Hoff].
    + rewrite filter_cons_True by done. rewrite fmap_cons.
      apply on_cell_target in Hon. unfold target in Hon. simplify_eq.
      rewrite (cn_between _ _ _ _ _ _ _ _ Hc). by rewrite <- app_assoc.
    + rewrite filter_cons_False by done.
      rewrite (cn_between_other _ _ _ _ _ _ _ _ Hc); [done|].
      intros Heq. apply Hoff. by apply on_cell_target.
Qed.

Lemma loads_counts cs w w' :
  loads cs w w' ->
  forall r,
    edge_count (stats (graph w')) !! r
    = Nat.iter (length (filter (of_type r) cs)) inc_count
        <$> edge_count (stats (graph w)) !! r.
Proof.
  induction 1 as [w|c cs w w1 w' Hc _ IH]; intros r.
  - simpl. by destruct (_ !! r).
  - rewrite IH, (cn_count _ _ _ _ _ _ _ _ Hc), list_lookup_alter.
    destruct (decide (of_type r c)) as [Hon|Hoff].
    + rewrite filter_cons_True by done. unfold of_type in Hon.
      rewrite decide_True by done. subst r.
      destruct (_ !! _); [|done]. rewrite length_cons.
      cbn [fmap option_fmap option_map]. by rewrite Nat.iter_succ_r.
    + rewrite filter_cons_False by done. unfold of_type in Hoff.
      by rewrite decide_False.
Qed.

Lemma inc_count_iter n : Z.of_nat n < UINT64_MOD -> Nat.iter n inc_count 0 = Z.of_nat n.
Proof.
  induction n as [|n IH]; [done|]. intros Hn. simpl. rewrite IH by lia.
  unfold inc_count. rewrite Z.mod_small; unfold UINT64_MOD in *; lia.
Qed.

(** Distinct ids below a bound are no more than the bound. *)
Lemma distinct_ids_bound (l : list Z) (n : Z) :
  0 <= n -> NoDup l -> Forall (fun x => 0 <= x < n) l -> Z.of_nat (length l) <= n.
Proof.
  intros Hn Hnd Hall.
  assert (Hsub : l ⊆+ seqZ 0 n).
  { apply NoDup_submseteq; [done|]. intros x Hx.
    rewrite Forall_forall in Hall. apply elem_of_seqZ.
    specialize (Hall x Hx). simpl in Hall. lia. }
  apply submseteq_length in Hsub. rewrite length_seqZ in Hsub. lia.
Qed.

Lemma loads_frame cs w w' :
  loads cs w w' ->
  nodes (graph w') = nodes (graph w) /\
  labels (graph w') = labels (graph w) /\
  node_labels (graph w') = node_labels (graph w) /\
  deletedIdx (edges (graph w')) = deletedIdx (edges (graph w)) /\
  length (relations (graph w')) = length (relations (graph w)).
Proof.
  induction 1 as [w|c cs w w1 w' Hc _ IH]; [done|].
  destruct IH as (-> & -> & -> & -> & ->).
  rewrite (cn_nodes _ _ _ _ _ _ _ _ Hc), (cn_labels _ _ _ _ _ _ _ _ Hc),
    (cn_node_labels _ _ _ _ _ _ _ _ Hc), (cn_edges _ _ _ _ _ _ _ _ Hc),
    (cn_rels _ _ _ _ _ _ _ _ Hc).
  done.
Qed.

Lemma loads_levels (mf : nat -> bool) cs w w' :
  loads cs w w' ->
  Forall (fun c => multi_flag (er_multi c) = mf (Z.to_nat (er_rel c))) cs ->
  (forall r s d, mf r = false -> (tag_level (cell (graph w) r s d) <= 1)%nat) ->
  forall r s d,
    tag_level (cell (graph w') r s d)
    = Nat.min (if mf r then 2 else 1)
              (tag_level (cell (graph w) r s d) + length (filter (on_cell r s d) cs)).
Proof.
  assert (Hle : forall c, (tag_level c <= 2)%nat).
  { intros [x|]; simpl; [destruct (SINGLE_EDGE x)|]; lia. }
  induction 1 as [w|c cs w w1 w' Hc _ IH]; intros Hmf H0 r s d.
  - simpl. specialize (H0 r s d). specialize (Hle (cell (graph w) r s d)).
    destruct (mf r); [lia|]. specialize (H0 eq_refl). lia.
  - apply Forall_cons in Hmf as [Hmc Hmf].
    assert (H1 : forall r s d, mf r = false ->
                   (tag_level (cell (graph w1) r s d) <= 1)%nat).
    { intros r2 s2 d2 Hr2.
      destruct (decide ((r2, s2, d2) = target c)) as [Heq|Hne].
      - unfold target in Heq. simplify_eq.
        rewrite (cn_level _ _ _ _ _ _ _ _ Hc), Hmc, Hr2. done.
      - rewrite (cn_cell_other _ _ _ _ _ _ _ _ Hc) by done. by apply H0. }
    rewrite (IH Hmf H1).
    destruct (decide (on_cell r s d c)) as [Hon|Hoff].
    + rewrite filter_cons_True by done. simpl.
      apply on_cell_target in Hon. unfold target in Hon. simplify_eq.
      rewrite (cn_level _ _ _ _ _ _ _ _ Hc), Hmc.
      specialize (H0 (Z.to_nat (er_rel c)) (er_src c) (er_dest c)).
      destruct (mf _); [lia|]. specialize (H0 eq_refl). lia.
    + rewrite filter_cons_False by done.
      rewrite (cn_cell_other _ _ _ _ _ _ _ _ Hc); [done|].
      intros Heq. apply Hoff. by apply on_cell_target.
Qed.

Lemma tag_level_le_2 c : (tag_level c <= 2)%nat.
Proof. destruct c as [x|]; simpl; [destruct (SINGLE_EDGE x)|]; lia. Qed.

Lemma load_prefix cs1 : forall cs2 w,
  load_pre w (cs1 ++ cs2) ->
  single_finds_empty (cs1 ++ cs2) w = true ->
  exists w1,
    load_edges cs1 w = Done (tt, w1) /\
    load_pre w1 cs2 /\
    single_finds_empty cs2 w1 = true /\
    forall r s d,
      tag_level (cell (graph w1) r s d)
      = Nat.min 2 (tag_level (cell (graph w) r s d) + length (ids_on r s d cs1)).
Proof.
  induction cs1 as [|c cs1 IH]; intros cs2 w Hpre Hs.
  - exists w. split; [done|]. split; [done|]. split; [done|].
    intros r s d. change (ids_on r s d []) with (@nil Z). cbn [length].
    pose proof (tag_level_le_2 (cell (graph w) r s d)). lia.
  - simpl in Hpre, Hs.
    pose proof Hpre as [Hwf Hfl Hrel Hid Hnew Hnd Hmem].
    apply Forall_cons in Hrel as [Hr _]. apply Forall_cons in Hid as [Hi _].
    apply Forall_cons in Hnew as [Hn _].
    destruct (SetEdge_ok (er_multi c) (er_id c) (er_src c) (er_dest c) (er_rel c)
                blank_edge w) as (w0 & Hrun & Hc); try done.
    { simpl in Hmem. unfold BLOCK_STRIDE in *. lia. }
    apply andb_true_iff in Hs as [Hhere Hs].
    unfold set_edge_of in Hs. rewrite Hrun in Hs.
    destruct (IH cs2 w0 (load_pre_step _ _ _ _ Hpre Hc) Hs)
      as (w1 & Hrun1 & Hpre1 & Hs1 & Hlev).
    exists w1. split; [|split; [done|split; [done|]]].
    + simpl. unfold set_edge_of. unfold mbind, prog_bind. by rewrite Hrun.
    + intros r s d. rewrite Hlev. unfold ids_on. rewrite !length_fmap.
      destruct (decide (on_cell r s d c)) as [Hon|Hoff].
      * rewrite filter_cons_True by done. cbn [length].
        apply on_cell_target in Hon. unfold target in Hon. simplify_eq.
        rewrite (cn_level _ _ _ _ _ _ _ _ Hc).
        pose proof (tag_level_le_2
          (cell (graph w) (Z.to_nat (er_rel c)) (er_src c) (er_dest c))).
        destruct (multi_flag (er_multi c)); simpl in Hhere; [lia|].
        apply bool_decide_eq_true in Hhere. rewrite Hhere. cbn [tag_level]. lia.
      * rewrite filter_cons_False by done.
        rewrite (cn_cell_other _ _ _ _ _ _ _ _ Hc); [done|].
        intros Heq. apply Hoff. by apply on_cell_target.
Qed.

Lemma loads_adj cs w w' :
  loads cs w w' ->
  forall c, c ∈ cs ->
    rg_matrix (adjacency_matrix (graph w')) !! (er_src c, er_dest c) = Some true /\
    rg_transposed (adjacency_matrix (graph w')) !! (er_dest c, er_src c) = Some true.
Proof.
  assert (Hkeep : forall cs w w', loads cs w w' -> forall k,
    (rg_matrix (adjacency_matrix (graph w)) !! k = Some true ->
     rg_matrix (adjacency_matrix (graph w')) !! k = Some true) /\
    (rg_transposed (adjacency_matrix (graph w)) !! k = Some true ->
     rg_transposed (adjacency_matrix (graph w')) !! k = Some true)).
  { induction 1 as [w0|c0 cs0 w0 w1 w2 Hc _ IH]; intros k; [done|].
    destruct (IH k) as [IH1 IH2].
    rewrite (cn_adj _ _ _ _ _ _ _ _ Hc) in IH1, IH2. simpl in *.
    split; intros Hk.
    - apply IH1. rewrite lookup_insert. by case_decide.
    - apply IH2. rewrite lookup_insert. by case_decide. }
  induction 1 as [w|c0 cs w w1 w' Hc Hl IH]; intros c Hin.
  - by apply elem_of_nil in Hin.
  - apply elem_of_cons in Hin as [->|Hin]; [|by apply IH].
    destruct (Hkeep _ _ _ Hl (er_src c0, er_dest c0)) as [K1 _].
    destruct (Hkeep _ _ _ Hl (er_dest c0, er_src c0)) as [_ K2].
    rewrite (cn_adj _ _ _ _ _ _ _ _ Hc) in K1, K2. simpl in *.
    split; [apply K1|apply K2]; apply lookup_insert_eq.
Qed.

(** ** Node creation and the label projection *)

Lemma diag_entries_lookup {A} (m : gmap (Z * Z) A) (k : Z) :
  diag_entries m !! k = m !! (k, k).
Proof.
  unfold diag_entries. revert k.
  apply (map_fold_weak_ind (fun (r : gmap Z A) (m : gmap (Z * Z) A) =>
           forall k, r !! k = m !! (k, k))).
  - intros k. by rewrite !lookup_empty.
  - intros [i j] x m0 r Hnone IH k. simpl. case_decide as Hij.
    + subst j. rewrite !lookup_insert. repeat case_decide; simplify_eq; auto.
    + rewrite lookup_insert_ne; [apply IH|]. intros [= -> ->]. done.
Qed.

Lemma col_assign_lookup {A} (C : gmap (Z * Z) A) (u : gmap Z A) (j k c : Z) :
  col_assign C u j !! (k, c) = if decide (c = j) then u !! k else C !! (k, c).
Proof.
  unfold col_assign. rewrite lookup_union. case_decide as Hc.
  - subst c. rewrite (lookup_kmap (fun i => (i, j))).
    rewrite map_lookup_filter_None_2; [by destruct (u !! k)|].
    right. intros x _. simpl. tauto.
  - rewrite (proj2 (lookup_kmap_None (fun i => (i, j)) u (k, c))).
    + rewrite (left_id None _). rewrite map_lookup_filter.
      destruct (C !! (k, c)) eqn:E; simpl; [|done]. by rewrite option_guard_True.
    + intros i [= -> ->]. done.
Qed.

Lemma length_labels_written id L : forall ls,
  length (labels_written id ls L) = length ls.
Proof.
  induction L as [|l L IH]; intros ls; [done|].
  unfold labels_written in *. simpl. rewrite IH. unfold label_write.
  by rewrite length_alter.
Qed.

Lemma label_write_bit id ls l j k :
  index_ok l ls = true ->
  from_option rg_matrix ∅ (label_write id ls l !! j) !! (k, k)
  = if decide (k = id /\ Z.of_nat j = l) then Some true
    else from_option rg_matrix ∅ (ls !! j) !! (k, k).
Proof.
  intros Hl. pose proof (index_ok_lt _ _ Hl) as Hlt.
  apply bool_decide_eq_true in Hl.
  unfold label_write. rewrite list_lookup_alter.
  destruct (decide (Z.to_nat l = j)) as [<-|Hne].
  - destruct (lookup_lt_is_Some_2 _ _ Hlt) as [R HR]. rewrite HR. simpl.
    rewrite lookup_insert, Z2Nat.id by lia.
    destruct (decide (k = id)) as [->|Hk].
    + by rewrite !decide_True.
    + rewrite !decide_False; [done|by intros [? _]|by intros [= ?]].
  - rewrite decide_False; [done|]. intros [_ <-]. lia.
Qed.

Lemma labels_written_bit id L : forall ls j k,
  Forall (fun l => index_ok l ls = true) L ->
  from_option rg_matrix ∅ (labels_written id ls L !! j) !! (k, k)
  = if decide (k = id /\ Z.of_nat j ∈ L) then Some true
    else from_option rg_matrix ∅ (ls !! j) !! (k, k).
Proof.
  induction L as [|l L IH]; intros ls j k Hv.
  - simpl. rewrite decide_False; [done|]. intros [_ H]. by apply elem_of_nil in H.
  - apply Forall_cons in Hv as [Hl Hv].
    change (labels_written id ls (l :: L))
      with (labels_written id (label_write id ls l) L).
    assert (Hv' : Forall (fun l0 => index_ok l0 (label_write id ls l) = true) L).
    { eapply Forall_impl; [exact Hv|]. intros l'. unfold index_ok, label_write.
      by rewrite length_alter. }
    rewrite (IH _ _ _ Hv'), (label_write_bit _ _ _ _ _ Hl).
    destruct (decide (k = id)) as [->|Hk].
    2:{ rewrite !decide_False by (by intros [? _]). done. }
    destruct (decide (Z.of_nat j ∈ L)) as [Hin|Hnin].
    { rewrite (decide_True (P := id = id /\ Z.of_nat j ∈ L)) by done.
      rewrite decide_True; [done|]. split; [done|]. apply elem_of_cons. by right. }
    rewrite (decide_False (P := id = id /\ Z.of_nat j ∈ L)) by (by intros [_ ?]).
    destruct (decide (Z.of_nat j = l)) as [Hjl|Hjl].
    + rewrite (decide_True (P := id = id /\ Z.of_nat j = l)) by done.
      rewrite decide_True; [done|]. split; [done|]. apply elem_of_cons. by left.
    + rewrite (decide_False (P := id = id /\ Z.of_nat j = l)) by (by intros [_ ?]).
      rewrite decide_False; [done|]. by intros [_ [?|?]%elem_of_cons].
Qed.

Lemma SetNode_round_run id (L : list Z) i l w :
  grb_faults w = [] ->
  0 <= i -> L !! Z.to_nat i = Some l ->
  index_ok l (labels (graph w)) = true ->
  SetNode_round id L i w
  = Done (tt, upd_graph (fun g => set_labels (label_write id (labels g) l) g) w).
Proof.
  destruct w as [g h b mv fl]. simpl. intros -> Hi Hl Hok.
  unfold SetNode_round, array_arg, Graph_GetLabelMatrix,
    GrB_Matrix_setElement_BOOL, GrB_Matrix_setElement, grb_next_fault.
  prog_unfold. rewrite bool_decide_eq_true_2 by done. rewrite Hl. simpl.
  rewrite Hok. simpl.
  unfold upd_graph, label_write. simpl. do 3 f_equal.
  destruct g; simpl. f_equal. apply list_alter_ext; [|done].
  intros R HR. by rewrite HR.
Qed.

Lemma SetNode_loop id L : forall pre suf w,
  grb_faults w = [] ->
  Forall (fun l => index_ok l (labels (graph w)) = true) L ->
  for_loop (Z.of_nat (length pre)) (length L) (SetNode_round id (pre ++ L ++ suf)) w
  = Done (tt, upd_graph (fun g => set_labels (labels_written id (labels g) L) g) w).
Proof.
  induction L as [|l L IH]; intros pre suf w Hfl Hv.
  - simpl. destruct w as [[] ? ? ? ?]; done.
  - apply Forall_cons in Hv as [Hl Hv].
    change (for_loop ?i (length (l :: L)) ?b w)
      with (match b i w with
            | Done (_, w1) => for_loop (i + 1) (length L) b w1
            | Fatal => Fatal
            end).
    rewrite (SetNode_round_run id _ _ l); try done; try lia.
    2:{ rewrite Nat2Z.id. by apply (list_lookup_middle pre (L ++ suf) l). }
    replace (Z.of_nat (length pre) + 1) with (Z.of_nat (length (pre ++ [l])))
      by (rewrite length_app; simpl; lia).
    replace (pre ++ (l :: L) ++ suf) with ((pre ++ [l]) ++ L ++ suf)
      by (by rewrite <- app_assoc).
    rewrite IH.
    + destruct w as [[] ? ? ? ?]; done.
    + by destruct w.
    + eapply Forall_impl; [exact Hv|]. intros l'. destruct w as [[] ? ? ? ?].
      unfold index_ok, label_write. simpl. by rewrite length_alter.
Qed.

Lemma SetNode_run id L label_count n w :
  grb_faults w = [] ->
  item_liveb (nodes (graph w)) id = false ->
  (label_count <= length L)%nat ->
  Forall (fun l => index_ok l (labels (graph w)) = true) (take label_count L) ->
  Serializer_Graph_SetNode id L label_count n w
  = Done (mkNode id id, upd_graph (node_set id (take label_count L)) w).
Proof.
  intros Hfl Hlive Hcnt Hv.
  destruct (alloc_then_init _ _ Hlive) as (db1 & Ha & Hi).
  unfold Serializer_Graph_SetNode, alloc_node, on_nodes.
  prog_unfold. rewrite Ha.
  change (fun i : Z => _) with (SetNode_round id L).
  pose proof (SetNode_loop id (take label_count L) [] (drop label_count L)) as Hloop.
  rewrite take_drop, length_take_le in Hloop by done. simpl in Hloop.
  rewrite Hloop.
  - destruct w as [[] ? ? ? ?]. simpl in *. unfold upd_graph, node_set. simpl.
    by rewrite Hi.
  - by destruct w.
  - by destruct w as [[] ? ? ? ?].
Qed.

Lemma project_to_same w :
  project_to (rg_matrix (node_labels (graph w))) w = w.
Proof. by destruct w as [[? ? ? ? [] ? ?] ? ? ? ?]. Qed.

Lemma project_to_twice NL1 NL2 w :
  project_to NL2 (project_to NL1 w) = project_to NL2 w.
Proof. by destruct w as [[? ? ? ? [] ? ?] ? ? ? ?]. Qed.

Lemma project_round_run u i w :
  index_ok i (labels (graph w)) = true ->
  project_round i (Some u) w
  = let u' := if default false (grb_faults w !! 0%nat) then u
              else diag_entries
                     (from_option rg_matrix ∅ (labels (graph w) !! Z.to_nat i)) in
    Done (Some u',
          with_faults (drop 2 (grb_faults w))
            (project_to (if default false (grb_faults w !! 1%nat)
                         then rg_matrix (node_labels (graph w))
                         else col_assign (rg_matrix (node_labels (graph w))) u' i)
                        w)).
Proof.
  intros Hi. unfold project_round, Graph_GetLabelMatrix, GxB_Vector_diag,
    GxB_Col_subassign, grb_next_fault. prog_unfold. rewrite Hi.
  destruct w as [[? ? ? ? [] ? ?] h b mv fl]. simpl.
  destruct fl as [|[] [|[] fl]]; reflexivity.
Qed.

Lemma project_loop_run cnt : forall i u w,
  grb_faults w = [] ->
  0 <= i -> i + Z.of_nat cnt <= Z.of_nat (length (labels (graph w))) ->
  exists u' NL',
    for_loop_with i cnt (Some u) project_round w
    = Done (Some u', project_to NL' w) /\
    forall k j,
      NL' !! (k, j)
      = if decide (i <= j < i + Z.of_nat cnt)
        then label_bit (graph w) (Z.to_nat j) k
        else node_label_bit (graph w) k j.
Proof.
  induction cnt as [|cnt IH]; intros i u w Hfl Hi Hle.
  - exists u, (rg_matrix (node_labels (graph w))). split.
    + by rewrite project_to_same.
    + intros k j. by rewrite decide_False by lia.
  - assert (Hok : index_ok i (labels (graph w)) = true).
    { unfold index_ok. apply bool_decide_eq_true_2. lia. }
    set (u1 := diag_entries
                 (from_option rg_matrix ∅ (labels (graph w) !! Z.to_nat i))).
    set (NL1 := col_assign (rg_matrix (node_labels (graph w))) u1 i).
    assert (Hrun1 : project_round i (Some u) w = Done (Some u1, project_to NL1 w)).
    { rewrite project_round_run by done. subst u1 NL1.
      destruct w as [[] ? ? ? fl]. simpl in Hfl. by subst fl. }
    destruct (IH (i + 1) u1 (project_to NL1 w)) as (u' & NL' & Hrun & Hbits);
      [by destruct w|lia| |].
    { destruct w as [[] ? ? ? ?]. simpl in *. lia. }
    exists u', NL'. split.
    + simpl. prog_unfold. rewrite Hrun1, Hrun. by rewrite project_to_twice.
    + intros k j. rewrite Hbits.
      assert (Hl1 : forall j', label_bit (graph (project_to NL1 w)) j' k
                               = label_bit (graph w) j' k)
        by (intros; by destruct w as [[] ? ? ? ?]).
      assert (Hn1 : node_label_bit (graph (project_to NL1 w)) k j
                    = if decide (j = i) then label_bit (graph w) (Z.to_nat i) k
                      else node_label_bit (graph w) k j).
      { subst NL1 u1. destruct w as [[] ? ? ? ?]. unfold node_label_bit, label_bit.
        simpl. rewrite col_assign_lookup. case_decide; [|done].
        by rewrite diag_entries_lookup. }
      rewrite Hl1, Hn1.
      destruct (decide (j = i)) as [->|Hne].
      * rewrite decide_False by lia. rewrite decide_True by lia. done.
      * destruct (decide (i + 1 <= j < i + 1 + Z.of_nat cnt)).
        -- by rewrite decide_True by lia.
        -- by rewrite decide_False by lia.
Qed.

Lemma SetNodeLabels_run w :
  grb_faults w = [] ->
  exists NL',
    Serializer_Graph_SetNodeLabels w = Done (tt, project_to NL' w) /\
    forall k j,
      NL' !! (k, j)
      = if decide (0 <= j < Z.of_nat (length (labels (graph w))))
        then label_bit (graph w) (Z.to_nat j) k
        else node_label_bit (graph w) k j.
Proof.
  intros Hfl.
  destruct (project_loop_run (length (labels (graph w))) 0 ∅ w)
    as (u' & NL' & Hrun & Hb); [done|lia|lia|].
  exists NL'. split; [|exact Hb].
  unfold Serializer_Graph_SetNodeLabels, Graph_RequiredMatrixDim,
    Graph_LabelTypeCount, Graph_GetNodeLabelMatrix, GrB_Vector_new, GrB_Vector_free,
    grb_next_fault.
  prog_unfold. rewrite Hfl, Nat2Z.id.
  change (match for_loop_with 0 (length (labels (graph w))) (Some ∅) project_round w
          with Done (_, w') => Done (tt, w') | Fatal => Fatal end
          = Done (tt, project_to NL' w)).
  by rewrite Hrun.
Qed.

Lemma SetNodeLabels_ok w :
  grb_faults w = [] ->
  exists w',
    Serializer_Graph_SetNodeLabels w = Done (tt, w') /\
    labels (graph w') = labels (graph w) /\
    forall k j,
      node_label_bit (graph w') k j
      = if decide (0 <= j < Z.of_nat (length (labels (graph w))))
        then label_bit (graph w) (Z.to_nat j) k
        else node_label_bit (graph w) k j.
Proof.
  intros Hfl. destruct (SetNodeLabels_run w Hfl) as (NL' & Hrun & Hb).
  exists (project_to NL' w). split; [done|]. split.
  - by destruct w as [[] ? ? ? ?].
  - intros k j. rewrite <- Hb. by destruct w as [[] ? ? ? ?].
Qed.

Lemma load_nodes_ok cs : forall w,
  grb_faults w = [] ->
  Forall (labels_known (graph w)) cs ->
  NoDup (nr_id <$> cs) ->
  Forall (fun c => item_liveb (nodes (graph w)) (nr_id c) = false) cs ->
  exists w',
    load_nodes cs w = Done (tt, w') /\
    grb_faults w' = [] /\
    node_labels (graph w') = node_labels (graph w) /\
    length (labels (graph w')) = length (labels (graph w)) /\
    forall j k,
      label_bit (graph w') j k
      = if decide (Exists (has_label k j) cs) then Some true
        else label_bit (graph w) j k.
Proof.
  induction cs as [|c cs IH]; intros w Hfl Hv Hnd Hnew.
  - exists w. repeat split; done.
  - apply Forall_cons in Hv as [Hvc Hv]. apply Forall_cons in Hnew as [Hnc Hnew].
    rewrite fmap_cons in Hnd. apply NoDup_cons in Hnd as [Hni Hnd].
    set (w1 := upd_graph (node_set (nr_id c) (nr_labels c)) w).
    assert (Hrun1 : set_node_of c w = Done (mkNode (nr_id c) (nr_id c), w1)).
    { unfold set_node_of. rewrite SetNode_run; try done.
      - by rewrite firstn_all.
      - by rewrite firstn_all. }
    destruct (IH w1) as (w' & Hrun & Hfl' & Hnl & Hlen & Hbits).
    + subst w1. by destruct w.
    + eapply Forall_impl; [exact Hv|]. intros c' Hc'. unfold labels_known in *.
      eapply Forall_impl; [exact Hc'|]. intros l. subst w1.
      destruct w as [[] ? ? ? ?]. unfold index_ok. simpl.
      by rewrite length_labels_written.
    + done.
    + rewrite Forall_forall in Hnew. apply Forall_forall. intros c' Hin.
      subst w1. destruct w as [[] ? ? ? ?]. simpl in *.
      rewrite item_liveb_fresh_ne; [by apply Hnew|].
      intros Heq. apply Hni. rewrite <- Heq. by apply list_elem_of_fmap_2.
    + exists w'. split; [|split; [done|split; [|split]]].
      * simpl. prog_unfold. by rewrite Hrun1.
      * rewrite Hnl. subst w1. by destruct w as [[] ? ? ? ?].
      * rewrite Hlen. subst w1. destruct w as [[] ? ? ? ?]. simpl.
        by rewrite length_labels_written.
      * intros j k. rewrite Hbits.
        assert (Hb1 : label_bit (graph w1) j k
                      = if decide (k = nr_id c /\ Z.of_nat j ∈ nr_labels c)
                        then Some true else label_bit (graph w) j k).
        { subst w1. destruct w as [[] ? ? ? ?]. unfold label_bit. simpl.
          by apply labels_written_bit. }
        rewrite Hb1.
        destruct (decide (Exists (has_label k j) cs)) as [He|Hne].
        -- rewrite decide_True; [done|]. by apply Exists_cons_tl.
        -- destruct (decide (k = nr_id c /\ Z.of_nat j ∈ nr_labels c)) as [[-> Hin]|Hn].
           ++ rewrite decide_True; [done|]. by apply Exists_cons_hd.
           ++ rewrite decide_False; [done|].
              intros [[Hk Hin]|?]%Exists_cons; [|done]. apply Hn. by split.
Qed.

(** ** The load protocol, claim by claim *)

Lemma cell_Graph_empty nl nr r s d : cell (Graph_empty nl nr) r s d = None.
Proof.
  unfold cell, Graph_empty. simpl.
  destruct (replicate nr RG_empty !! r) as [R|] eqn:E; [|done].
  apply lookup_replicate in E as [-> _]. done.
Qed.

Lemma cell_T_Graph_empty nl nr r s d : cell_T (Graph_empty nl nr) r d s = None.
Proof.
  unfold cell_T, Graph_empty. simpl.
  destruct (replicate nr RG_empty !! r) as [R|] eqn:E; [|done].
  apply lookup_replicate in E as [-> _]. done.
Qed.

Lemma wf_World_init nl nr : wf (World_init nl nr).
Proof.
  split; simpl.
  - unfold HEAP_END. lia.
  - intros p a. by rewrite lookup_empty.
  - intros r s d x. by rewrite cell_Graph_empty.
  - intros r s d. by rewrite cell_Graph_empty, cell_T_Graph_empty.
  - intros r1 s1 d1 x1 r2 s2 d2 x2. by rewrite cell_Graph_empty.
  - by rewrite !length_replicate.
  - done.
Qed.

Lemma wf_World_moving nl nr : wf (World_moving nl nr).
Proof. destruct (wf_World_init nl nr) as [? ? ? ? ? ? ?]. split; done. Qed.

Lemma SINGLE_EDGE_bound x :
  0 <= x < UINT64_MOD -> SINGLE_EDGE x = true -> x < 2 ^ 63.
Proof.
  intros Hx Hs. destruct (decide (x < 2 ^ 63)) as [|Hge]; [done|].
  assert (Hp : 0 <= x - 2 ^ 63 < 2 ^ 63) by (unfold UINT64_MOD in *; lia).
  pose proof (SET_MSB_tagged _ Hp) as Ht.
  rewrite SET_MSB_plus in Ht by done.
  replace (x - 2 ^ 63 + 2 ^ 63) with x in Ht by lia. congruence.
Qed.

Lemma between_T_mirror w r s d :
  wf w -> edges_between_T w r d s = edges_between w r s d.
Proof. intros Hwf. unfold edges_between_T, edges_between. by rewrite (wf_mirror _ Hwf). Qed.

Example scenario_runs :
  after scenario_single (World_init 2 1)
    (fun w => (node_label_bit (graph w) 0 0, node_label_bit (graph w) 0 1,
               node_label_bit (graph w) 1 0, node_label_bit (graph w) 1 1))
  = Some (Some true, None, None, Some true) /\
  after scenario_single (World_init 2 1)
    (fun w => (cell (graph w) 0 0 1,
               rg_matrix (adjacency_matrix (graph w)) !! (0, 1),
               edge_count (stats (graph w))))
  = Some (Some 10, Some true, [1]) /\
  after scenario_multi (World_init 2 1)
    (fun w => (edges_between w 0 0 1, edge_count (stats (graph w))))
  = Some ([10; 11], [2]).
Proof. repeat split; vm_compute; reflexivity. Qed.

(** C1: any run of multi-edge insertions reads back, cell by cell, as what
    the cell enumerated before followed by every edge id inserted on that
    ordered pair and relation type, in insertion order; the cell moves from
    absent to single-tagged to multi-tagged as the first and the second id
    arrive, so the second insertion keeps the first id. *)
Theorem multi_edge_readback w cs :
  load_pre w cs ->
  Forall (fun c => er_multi c <> 0) cs ->
  exists w',
    load_edges cs w = Done (tt, w') /\
    (forall r s d,
       edges_between w' r s d = edges_between w r s d ++ ids_on r s d cs) /\
    (forall r s d,
       tag_level (cell (graph w') r s d)
       = Nat.min 2 (tag_level (cell (graph w) r s d) + length (ids_on r s d cs))).
Proof.
  intros Hpre Hm. destruct (load_edges_ok cs w Hpre) as (w' & Hrun & Hl).
  exists w'. split; [done|]. split.
  - by apply loads_between_multi.
  - intros r s d. unfold ids_on. rewrite length_fmap.
    apply (loads_levels (fun _ => true) cs w w' Hl); [|done].
    eapply Forall_impl; [exact Hm|]. intros c Hc. unfold multi_flag.
    by apply bool_decide_eq_true_2.
Qed.

Lemma load_pre_three_parallel : load_pre (World_init 2 1) three_parallel.
Proof.
  split.
  - apply wf_World_init.
  - reflexivity.
  - repeat constructor.
  - repeat constructor; simpl; lia.
  - repeat constructor.
  - apply (bool_decide_unpack _). vm_compute. exact I.
  - vm_compute. discriminate.
Qed.

Lemma load_pre_three_moving : load_pre (World_moving 2 1) three_parallel.
Proof.
  destruct load_pre_three_parallel as [_ ? ? ? ? ? ?].
  split; try done. apply wf_World_moving.
Qed.

Lemma multi_edge_readback_witness :
  load_pre (World_moving 2 1) three_parallel /\
  Forall (fun c => er_multi c <> 0) three_parallel /\
  exists w',
    load_edges three_parallel (World_moving 2 1) = Done (tt, w') /\
    edges_between w' 0 0 1 = [10; 11; 12] /\
    tag_level (cell (graph w') 0 0 1) = 2%nat.
Proof.
  assert (Hpre : load_pre (World_moving 2 1) three_parallel)
    by apply load_pre_three_moving.
  assert (Hm : Forall (fun c => er_multi c <> 0) three_parallel)
    by (repeat constructor; simpl; lia).
  split; [exact Hpre|]. split; [exact Hm|].
  destruct (multi_edge_readback (World_moving 2 1) three_parallel Hpre Hm)
    as (w' & Hrun & Hb & Hl).
  exists w'. split; [exact Hrun|]. split.
  - rewrite Hb. reflexivity.
  - rewrite Hl. reflexivity.
Defined.

(** C2: after a load of edge insertions, by either routine, the adjacency
    matrix and its transpose agree under coordinate swap and hold true at
    every inserted edge, and every relation cell and its transpose cell
    hold the same scalar and read back the same edge ids. *)
Theorem forward_transpose_agree w cs :
  load_pre w cs ->
  exists w',
    load_edges cs w = Done (tt, w') /\
    (forall s d,
       rg_transposed (adjacency_matrix (graph w')) !! (d, s)
       = rg_matrix (adjacency_matrix (graph w')) !! (s, d)) /\
    (forall c, c ∈ cs ->
       rg_matrix (adjacency_matrix (graph w')) !! (er_src c, er_dest c) = Some true /\
       rg_transposed (adjacency_matrix (graph w')) !! (er_dest c, er_src c) = Some true) /\
    (forall r s d, cell_T (graph w') r d s = cell (graph w') r s d) /\
    (forall r s d, edges_between_T w' r d s = edges_between w' r s d).
Proof.
  intros Hpre. destruct (load_edges_ok cs w Hpre) as (w' & Hrun & Hl).
  pose proof (loads_wf _ _ _ Hl (lp_wf _ _ Hpre)) as Hwf.
  exists w'. split; [done|]. split; [apply (wf_adj _ Hwf)|].
  split; [apply (loads_adj _ _ _ Hl)|]. split; [apply (wf_mirror _ Hwf)|].
  intros r s d. by apply between_T_mirror.
Qed.

Lemma load_pre_mixed_load : load_pre (World_init 2 1) mixed_load.
Proof.
  split.
  - apply wf_World_init.
  - reflexivity.
  - repeat constructor.
  - repeat constructor; simpl; lia.
  - repeat constructor.
  - apply (bool_decide_unpack _). vm_compute. exact I.
  - vm_compute. discriminate.
Qed.

Lemma forward_transpose_agree_witness :
  load_pre (World_init 2 1) mixed_load /\
  exists w',
    load_edges mixed_load (World_init 2 1) = Done (tt, w') /\
    rg_matrix (adjacency_matrix (graph w')) !! (0, 1) = Some true /\
    rg_transposed (adjacency_matrix (graph w')) !! (1, 0) = Some true /\
    edges_between_T w' 0 1 0 = edges_between w' 0 0 1.
Proof.
  assert (Hpre : load_pre (World_init 2 1) mixed_load) by apply load_pre_mixed_load.
  split; [exact Hpre|].
  destruct (forward_transpose_agree (World_init 2 1) mixed_load Hpre)
    as (w' & Hrun & _ & Hin & _ & Hb).
  exists w'. split; [exact Hrun|].
  destruct (Hin (mkEdgeRec 0 10 0 1 0)) as [H1 H2].
  { apply elem_of_cons. by left. }
  split; [exact H1|]. split; [exact H2|]. apply Hb.
Defined.

(** C3: a load of edge insertions, whatever routine and branch each one
    takes, bumps the counter of each relation type once per inserted edge of
    that type and no other counter; a counter that starts at zero ends at
    the number of edges of its type. *)
Theorem edge_counter_counts w cs :
  load_pre w cs ->
  exists w',
    load_edges cs w = Done (tt, w') /\
    (forall r,
       edge_count (stats (graph w')) !! r
       = Nat.iter (length (filter (of_type r) cs)) inc_count
           <$> edge_count (stats (graph w)) !! r) /\
    (forall r,
       edge_count (stats (graph w)) !! r = Some 0 ->
       edge_count (stats (graph w')) !! r
       = Some (Z.of_nat (length (filter (of_type r) cs)))).
Proof.
  intros Hpre. destruct (load_edges_ok cs w Hpre) as (w' & Hrun & Hl).
  exists w'. split; [done|]. split; [by apply loads_counts|].
  intros r H0. rewrite (loads_counts _ _ _ Hl), H0. simpl. f_equal.
  apply inc_count_iter.
  pose proof (length_filter (of_type r) cs) as Hle.
  assert (Hb : Z.of_nat (length (er_id <$> cs)) <= 2 ^ 63).
  { apply distinct_ids_bound; [lia|apply (lp_nodup _ _ Hpre)|].
    apply Forall_fmap. exact (lp_id _ _ Hpre). }
  rewrite length_fmap in Hb. unfold UINT64_MOD. lia.
Qed.

Lemma edge_counter_counts_witness :
  load_pre (World_init 2 1) mixed_load /\
  exists w',
    load_edges mixed_load (World_init 2 1) = Done (tt, w') /\
    edge_count (stats (graph w')) !! 0%nat = Some 3.
Proof.
  assert (Hpre : load_pre (World_init 2 1) mixed_load) by apply load_pre_mixed_load.
  split; [exact Hpre|].
  destruct (edge_counter_counts (World_init 2 1) mixed_load Hpre)
    as (w' & Hrun & _ & Hz).
  exists w'. split; [exact Hrun|]. rewrite Hz; reflexivity.
Defined.

(** C4, at the failing input: with one edge already between nodes 0 and 1,
    a multi-edge insertion whose forward relation write reports failure is
    not stopped.  The routine returns, the forward cell still holds the old
    single id while the transpose cell refers to the new sequence, and the
    counter has been bumped.  The same failure on the branch for an empty
    cell ends the run. *)
Theorem unchecked_write_failure_continues :
  (exists w',
     final_world ((Serializer_Graph_SetEdge 0 10 0 1 0 blank_edge;;
                   Serializer_Graph_SetEdge 1 11 0 1 0 blank_edge)
                    failing_forward_write) = Some w' /\
     cell (graph w') 0 0 1 = Some 10 /\
     cell_T (graph w') 0 1 0 = Some (SET_MSB 4096) /\
     edges_between w' 0 0 1 = [10] /\
     edges_between_T w' 0 1 0 = [10; 11] /\
     edge_count (stats (graph w')) = [2]) /\
  final_world (Serializer_Graph_SetEdge 1 11 0 1 0 blank_edge
                 (mkWorld (Graph_empty 0 1) ∅ 4096 [] [false; false; true]))
  = None.
Proof.
  split; [|vm_compute; reflexivity].
  eexists. split; [vm_compute; reflexivity|].
  repeat split; vm_compute; reflexivity.
Qed.

(** C5: at every point of a load in which the single-edge routine is only
    handed cells that hold no value, every relation cell is absent, or a
    scalar with the top bit clear that is exactly one edge id, or a scalar
    with the top bit set whose other bits name the sequence of the cell's
    edge ids; the cell is multi-tagged from the moment its second edge is
    there, and at no later point of the load is its tag lower than
    before. *)
Theorem cell_encoding_invariant w cs1 cs2 :
  load_pre w (cs1 ++ cs2) ->
  single_finds_empty (cs1 ++ cs2) w = true ->
  exists w1 w2,
    load_edges cs1 w = Done (tt, w1) /\
    load_edges cs2 w1 = Done (tt, w2) /\
    (forall r s d x,
       cell (graph w1) r s d = Some x ->
       0 <= x < UINT64_MOD /\
       if SINGLE_EDGE x
       then 0 <= x < 2 ^ 63 /\ edges_between w1 r s d = [x]
       else exists a,
              arrays w1 !! CLEAR_MSB x = Some a /\
              SET_MSB (CLEAR_MSB x) = x /\
              edges_between w1 r s d = arr_items a /\
              (2 <= length (arr_items a))%nat) /\
    (forall r s d,
       tag_level (cell (graph w1) r s d)
       = Nat.min 2 (tag_level (cell (graph w) r s d) + length (ids_on r s d cs1))) /\
    (forall r s d,
       (tag_level (cell (graph w1) r s d) <= tag_level (cell (graph w2) r s d))%nat).
Proof.
  intros Hpre Hs.
  destruct (load_prefix cs1 cs2 w Hpre Hs) as (w1 & Hrun1 & Hpre1 & Hs1 & Hlev1).
  rewrite <- (app_nil_r cs2) in Hpre1, Hs1.
  destruct (load_prefix cs2 [] w1 Hpre1 Hs1) as (w2 & Hrun2 & _ & _ & Hlev2).
  rewrite app_nil_r in Hpre1.
  pose proof (lp_wf _ _ Hpre1) as Hwf.
  exists w1, w2. split; [done|]. split; [done|]. split; [|split; [done|]].
  - intros r s d x Hc. destruct (wf_cells _ Hwf _ _ _ _ Hc) as [Hx Hm].
    split; [done|]. unfold edges_between, cell_ids. rewrite Hc. simpl.
    destruct (SINGLE_EDGE x) eqn:Hsx.
    + split; [|done]. split; [lia|]. by apply SINGLE_EDGE_bound.
    + destruct (Hm eq_refl) as (a & Ha & Hlen). exists a. rewrite Ha.
      split; [done|]. split; [by apply SET_CLEAR_MSB|]. done.
  - intros r s d. rewrite Hlev2.
    pose proof (tag_level_le_2 (cell (graph w1) r s d)). lia.
Qed.

Lemma load_pre_two_then_single :
  load_pre (World_init 2 1) (two_parallel ++ single_elsewhere).
Proof.
  split.
  - apply wf_World_init.
  - reflexivity.
  - repeat constructor.
  - repeat constructor; simpl; lia.
  - repeat constructor.
  - apply (bool_decide_unpack _). vm_compute. exact I.
  - vm_compute. discriminate.
Qed.

Lemma cell_encoding_invariant_witness :
  load_pre (World_init 2 1) (two_parallel ++ single_elsewhere) /\
  single_finds_empty (two_parallel ++ single_elsewhere) (World_init 2 1) = true /\
  exists w1 w2,
    load_edges two_parallel (World_init 2 1) = Done (tt, w1) /\
    load_edges single_elsewhere w1 = Done (tt, w2) /\
    tag_level (cell (graph w1) 0 0 1) = 2%nat /\
    tag_level (cell (graph w1) 0 2 3) = 0%nat /\
    (2 <= tag_level (cell (graph w2) 0 0 1))%nat.
Proof.
  assert (Hpre : load_pre (World_init 2 1) (two_parallel ++ single_elsewhere))
    by apply load_pre_two_then_single.
  assert (Hs : single_finds_empty (two_parallel ++ single_elsewhere)
                 (World_init 2 1) = true) by (vm_compute; reflexivity).
  split; [exact Hpre|]. split; [exact Hs|].
  destruct (cell_encoding_invariant (World_init 2 1) two_parallel single_elsewhere
              Hpre Hs) as (w1 & w2 & Hrun1 & Hrun2 & _ & Hlev & Hmono).
  exists w1, w2. split; [exact Hrun1|]. split; [exact Hrun2|].
  pose proof (Hmono 0%nat 0 1) as Hm. rewrite !Hlev in *.
  split; [reflexivity|]. split; [reflexivity|]. exact Hm.
Defined.

(** C6: the single-edge routine writes the inserted id itself into the
    relation cell and into the transpose cell at the swapped coordinates,
    whatever either cell held before: the relation matrices afterwards are
    the old ones with these two entries overwritten. *)
Theorem single_connect_overwrites w id s d r e :
  grb_faults w = [] ->
  item_liveb (edges (graph w)) id = false ->
  index_ok r (relations (graph w)) = true ->
  index_ok r (edge_count (stats (graph w))) = true ->
  exists w',
    Serializer_Graph_SetEdge 0 id s d r e w = Done (mkEdge id id r s d, w') /\
    cell (graph w') (Z.to_nat r) s d = Some id /\
    cell_T (graph w') (Z.to_nat r) d s = Some id /\
    relations (graph w')
    = alter (fun R => mkRG (<[(s, d) := id]> (rg_matrix R))
                           (<[(d, s) := id]> (rg_transposed R)))
            (Z.to_nat r) (relations (graph w)).
Proof.
  intros Hfl Hlive Hr Hc. rewrite SetEdge_run by done. unfold connect_by.
  rewrite bool_decide_eq_false_2 by (intros H; by apply H).
  rewrite single_connect_run; [|by destruct w|by destruct w as [[] ? ? ? ?]..].
  eexists. split; [done|].
  pose proof (index_ok_lt _ _ Hr) as Hlt.
  destruct w as [[] ? ? ? ?]. simpl in *.
  rewrite cell_connect_effect, cell_T_connect_effect by done.
  by rewrite !decide_True.
Qed.

Lemma single_connect_overwrites_witness :
  grb_faults World_two_parallel = [] /\
  item_liveb (edges (graph World_two_parallel)) 12 = false /\
  index_ok 0 (relations (graph World_two_parallel)) = true /\
  index_ok 0 (edge_count (stats (graph World_two_parallel))) = true /\
  exists w',
    Serializer_Graph_SetEdge 0 12 0 1 0 blank_edge World_two_parallel
    = Done (mkEdge 12 12 0 0 1, w') /\
    cell (graph w') 0 0 1 = Some 12 /\
    cell_T (graph w') 0 1 0 = Some 12.
Proof.
  split; [reflexivity|]. split; [reflexivity|]. split; [reflexivity|].
  split; [reflexivity|].
  destruct (single_connect_overwrites World_two_parallel 12 0 1 0 blank_edge)
    as (w' & Hrun & Hc & Ht & _); try reflexivity.
  exists w'. split; [exact Hrun|]. split; [exact Hc|exact Ht].
Defined.

(** C9: when the multi-edge routine meets an occupied cell, the forward
    cell and the transpose cell end up holding one and the same tagged
    pointer, the sequence it names is the old enumeration with the new id
    appended, both orientations read that sequence back, and every other
    array on the heap was there before: no second sequence is built for
    the transpose. *)
Theorem multi_cells_share_sequence w id s d r :
  wf w ->
  grb_faults w = [] ->
  index_ok r (relations (graph w)) = true ->
  0 <= id < 2 ^ 63 ->
  brk w + BLOCK_STRIDE <= HEAP_END ->
  is_Some (cell (graph w) (Z.to_nat r) s d) ->
  exists w' p a,
    _OptimizedMultiEdgeFormConnection s d id r w = Done (tt, w') /\
    cell (graph w') (Z.to_nat r) s d = Some (SET_MSB p) /\
    cell_T (graph w') (Z.to_nat r) d s = Some (SET_MSB p) /\
    CLEAR_MSB (SET_MSB p) = p /\
    arrays w' !! p = Some a /\
    arr_items a = edges_between w (Z.to_nat r) s d ++ [id] /\
    edges_between w' (Z.to_nat r) s d = arr_items a /\
    edges_between_T w' (Z.to_nat r) d s = arr_items a /\
    (forall q (b : array), q <> p -> arrays w' !! q = Some b -> arrays w !! q = Some b).
Proof.
  intros Hwf Hfl Hr Hid Hmem Hocc.
  destruct (connect_multi_ok w s d id r) as (w' & Hrun & Hc); try done.
  destruct (cn_shared _ _ _ _ _ _ _ _ Hc eq_refl Hocc)
    as (p & a & Hcell & HcellT & Hp & Ha & Hitems & Hother).
  exists w', p, a. split; [done|]. split; [done|]. split; [done|].
  split; [apply CLEAR_SET_MSB; unfold HEAP_END in Hp; lia|].
  split; [done|]. split; [done|]. split; [|split; [|done]].
  - rewrite (cn_between _ _ _ _ _ _ _ _ Hc). by rewrite Hitems.
  - rewrite between_T_mirror by apply (cn_wf _ _ _ _ _ _ _ _ Hc).
    rewrite (cn_between _ _ _ _ _ _ _ _ Hc). by rewrite Hitems.
Qed.

Lemma wf_World_two_parallel : wf World_two_parallel.
Proof.
  assert (Hcell : forall r s d x,
            cell (graph World_two_parallel) r s d = Some x ->
            (r, s, d) = (0%nat, 0, 1) /\ x = SET_MSB 4096).
  { intros r s d x. unfold cell. simpl. destruct r as [|r]; simpl; [|done].
    intros [Hk <-]%lookup_singleton_Some. by simplify_eq. }
  split; simpl.
  - unfold HEAP_END. lia.
  - intros p a [<- <-]%lookup_singleton_Some. lia.
  - intros r s d x [_ ->]%Hcell. split; [vm_compute; split; [discriminate|done]|].
    intros _. exists (mkArray 2 [10; 11]). split; [done|]. simpl. lia.
  - intros r s d. unfold cell, cell_T. simpl. destruct r as [|r]; simpl; [|done].
    destruct (decide ((s, d) = (0, 1))) as [[= -> ->]|Hne]; [done|].
    rewrite !lookup_singleton_ne; [done| |]; intros ?; simplify_eq.
  - intros r1 s1 d1 x1 r2 s2 d2 x2 [-> _]%Hcell [-> _]%Hcell. done.
  - done.
  - done.
Qed.

Lemma multi_cells_share_sequence_witness :
  wf World_two_parallel /\
  is_Some (cell (graph World_two_parallel) 0 0 1) /\
  exists w' p a,
    _OptimizedMultiEdgeFormConnection 0 1 12 0 World_two_parallel = Done (tt, w') /\
    cell (graph w') 0 0 1 = Some (SET_MSB p) /\
    cell_T (graph w') 0 1 0 = Some (SET_MSB p) /\
    arrays w' !! p = Some a /\
    arr_items a = [10; 11; 12].
Proof.
  assert (Hwf : wf World_two_parallel) by apply wf_World_two_parallel.
  assert (Hocc : is_Some (cell (graph World_two_parallel) (Z.to_nat 0) 0 1))
    by (eexists; reflexivity).
  assert (Hid : 0 <= 12 < 2 ^ 63) by lia.
  assert (Hmem : brk World_two_parallel + BLOCK_STRIDE <= HEAP_END)
    by (vm_compute; discriminate).
  split; [exact Hwf|]. split; [exact Hocc|].
  destruct (multi_cells_share_sequence World_two_parallel 12 0 1 0 Hwf
              eq_refl eq_refl Hid Hmem Hocc)
    as (w' & p & a & Hrun & Hc & Ht & _ & Ha & Hi & _).
  exists w', p, a. split; [exact Hrun|]. split; [exact Hc|]. split; [exact Ht|].
  split; [exact Ha|]. rewrite Hi. reflexivity.
Defined.

Lemma NoDup_fmap_same {A B} (f : A -> B) (l : list A) x y :
  NoDup (f <$> l) -> x ∈ l -> y ∈ l -> f x = f y -> x = y.
Proof.
  induction l as [|a l IH]; intros Hnd Hx Hy Hf; [by apply elem_of_nil in Hx|].
  rewrite fmap_cons in Hnd. apply NoDup_cons in Hnd as [Hni Hnd].
  apply elem_of_cons in Hx as [->|Hx]; apply elem_of_cons in Hy as [->|Hy].
  - done.
  - exfalso. apply Hni. rewrite Hf. by apply list_elem_of_fmap_2.
  - exfalso. apply Hni. rewrite <- Hf. by apply list_elem_of_fmap_2.
  - by apply IH.
Qed.

(** C7: after a node phase (nodes inserted with their label sets, then
    one projection) the row of every inserted node in the node-label
    matrix holds true exactly at the columns of its label set and nothing
    elsewhere, and every label's column of the node-label matrix is the
    diagonal of that label's matrix. *)
Theorem node_labels_roundtrip w cs :
  grb_faults w = [] ->
  Forall (labels_known (graph w)) cs ->
  NoDup (nr_id <$> cs) ->
  Forall (fun c => item_liveb (nodes (graph w)) (nr_id c) = false) cs ->
  (forall c j, c ∈ cs -> label_bit (graph w) j (nr_id c) = None) ->
  (forall c j, c ∈ cs ->
     ~ 0 <= j < Z.of_nat (length (labels (graph w))) ->
     node_label_bit (graph w) (nr_id c) j = None) ->
  exists w',
    node_phase cs w = Done (tt, w') /\
    (forall c j, c ∈ cs ->
       node_label_bit (graph w') (nr_id c) j
       = if decide (j ∈ nr_labels c) then Some true else None) /\
    (forall i k, 0 <= i < Z.of_nat (length (labels (graph w'))) ->
       node_label_bit (graph w') k i = label_bit (graph w') (Z.to_nat i) k).
Proof.
  intros Hfl Hv Hnd Hnew Hclean Hrow.
  destruct (load_nodes_ok cs w Hfl Hv Hnd Hnew)
    as (w1 & Hrun1 & Hfl1 & Hnl & Hlen & Hbits).
  destruct (SetNodeLabels_ok w1 Hfl1) as (w' & Hrun & Hlab & Hproj).
  exists w'. split; [|split].
  - unfold node_phase. unfold mbind, prog_bind. by rewrite Hrun1.
  - intros c j Hc. rewrite Hproj, Hlen.
    assert (Hin : forall l, l ∈ nr_labels c ->
                    0 <= l < Z.of_nat (length (labels (graph w)))).
    { intros l Hl. rewrite Forall_forall in Hv. specialize (Hv c Hc).
      unfold labels_known in Hv. rewrite Forall_forall in Hv.
      specialize (Hv l Hl). by apply bool_decide_eq_true in Hv. }
    destruct (decide (0 <= j < Z.of_nat (length (labels (graph w))))) as [Hj|Hj].
    + rewrite Hbits, Hclean by done.
      destruct (decide (j ∈ nr_labels c)) as [Hjc|Hjc].
      * rewrite decide_True; [done|]. apply Exists_exists. exists c.
        split; [done|]. split; [done|]. by rewrite Z2Nat.id by lia.
      * rewrite decide_False; [done|]. intros (c' & Hc' & Hid & Hl)%Exists_exists.
        rewrite Z2Nat.id in Hl by lia.
        assert (c' = c) by (by apply (NoDup_fmap_same nr_id cs)). by subst c'.
    + rewrite decide_False by (intros ?; by apply Hj, Hin).
      unfold node_label_bit. rewrite Hnl. by apply Hrow.
  - intros i k Hi. rewrite Hlab in Hi. rewrite Hproj.
    rewrite decide_True by done. unfold label_bit. by rewrite Hlab.
Qed.

Lemma node_labels_roundtrip_witness :
  grb_faults (World_init 2 1) = [] /\
  Forall (labels_known (graph (World_init 2 1))) two_nodes /\
  NoDup (nr_id <$> two_nodes) /\
  exists w',
    node_phase two_nodes (World_init 2 1) = Done (tt, w') /\
    node_label_bit (graph w') 0 0 = Some true /\
    node_label_bit (graph w') 0 1 = None /\
    node_label_bit (graph w') 1 0 = None /\
    node_label_bit (graph w') 1 1 = Some true.
Proof.
  assert (Hv : Forall (labels_known (graph (World_init 2 1))) two_nodes)
    by (repeat constructor).
  assert (Hnd : NoDup (nr_id <$> two_nodes))
    by (apply (bool_decide_unpack _); vm_compute; exact I).
  split; [reflexivity|]. split; [exact Hv|]. split; [exact Hnd|].
  destruct (node_labels_roundtrip (World_init 2 1) two_nodes eq_refl Hv Hnd)
    as (w' & Hrun & Hrow & _).
  - repeat constructor.
  - intros c j _. unfold label_bit. simpl.
    destruct j as [|[|j]]; simpl; apply lookup_empty.
  - intros c j _ _. apply lookup_empty.
  - assert (H0 : mkNodeRec 0 [0] ∈ two_nodes) by (apply elem_of_cons; by left).
    assert (H1 : mkNodeRec 1 [1] ∈ two_nodes)
      by (apply elem_of_cons; right; apply elem_of_cons; by left).
    exists w'. split; [exact Hrun|].
    pose proof (Hrow _ 0 H0) as R00. pose proof (Hrow _ 1 H0) as R01.
    pose proof (Hrow _ 0 H1) as R10. pose proof (Hrow _ 1 H1) as R11.
    simpl in *. done.
Defined.

(** C8: marking ids deleted only appends them, in order, to the deletion
    list of the block concerned; no matrix, no counter, no heap array and
    no slot of any other id changes, and the other block is untouched. *)
Theorem mark_deleted_only_appends w a b :
  (exists w',
     (Serializer_Graph_MarkNodeDeleted a;; Serializer_Graph_MarkNodeDeleted b) w
     = Done (tt, w') /\
     Serializer_Graph_GetDeletedNodesList (graph w')
     = Serializer_Graph_GetDeletedNodesList (graph w) ++ [a; b] /\
     same_topology (graph w) (graph w') /\
     edges (graph w') = edges (graph w) /\
     arrays w' = arrays w /\
     forall k, k <> a -> k <> b ->
       items (nodes (graph w')) !! k = items (nodes (graph w)) !! k) /\
  (exists w',
     (Serializer_Graph_MarkEdgeDeleted a;; Serializer_Graph_MarkEdgeDeleted b) w
     = Done (tt, w') /\
     Serializer_Graph_GetDeletedEdgesList (graph w')
     = Serializer_Graph_GetDeletedEdgesList (graph w) ++ [a; b] /\
     same_topology (graph w) (graph w') /\
     nodes (graph w') = nodes (graph w) /\
     arrays w' = arrays w /\
     forall k, k <> a -> k <> b ->
       items (edges (graph w')) !! k = items (edges (graph w)) !! k).
Proof.
  destruct w as [[] ? ? ? ?].
  split; eexists; (split; [reflexivity|]);
    unfold Serializer_Graph_GetDeletedNodesList, Serializer_Graph_GetDeletedEdgesList,
      same_topology, set_nodes, set_edges, DataBlock_MarkAsDeletedOutOfOrder; simpl;
    (split; [by rewrite <- app_assoc|]); (split; [done|]);
    (split; [done|]); (split; [done|]); intros k Ha Hb;
    by rewrite !lookup_partial_alter_ne.
Qed.

(** C10: the slot allocated by the node-creation and by the edge-creation
    call has property count zero and no property block, and the record
    handed back carries the caller's id (for an edge also the caller's
    relation type, source and destination) and points at that slot. *)
Theorem fresh_entity_and_record w id L label_count n eid s d r multi e :
  grb_faults w = [] ->
  item_liveb (nodes (graph w)) id = false ->
  (label_count <= length L)%nat ->
  Forall (fun l => index_ok l (labels (graph w)) = true) (take label_count L) ->
  wf w ->
  item_liveb (edges (graph w)) eid = false ->
  index_ok r (relations (graph w)) = true ->
  0 <= eid < 2 ^ 63 ->
  brk w + BLOCK_STRIDE <= HEAP_END ->
  (exists n' w',
     Serializer_Graph_SetNode id L label_count n w = Done (n', w') /\
     n_id n' = id /\
     Entity_deref (nodes (graph w')) (n_entity n') = Some (mkEntity 0 NULL)) /\
  (exists e' w',
     Serializer_Graph_SetEdge multi eid s d r e w = Done (e', w') /\
     e_id e' = eid /\ relationID e' = r /\ srcNodeID e' = s /\ destNodeID e' = d /\
     Entity_deref (edges (graph w')) (e_entity e') = Some (mkEntity 0 NULL)).
Proof.
  intros Hfl Hn Hcnt Hv Hwf He Hr Hid Hmem. split.
  - eexists _, _. split; [by apply SetNode_run|]. split; [done|].
    destruct w as [[] ? ? ? ?]. unfold Entity_deref. simpl.
    by rewrite lookup_insert_eq.
  - destruct (SetEdge_ok multi eid s d r e w) as (w' & Hrun & Hc); try done.
    eexists _, _. split; [exact Hrun|]. repeat (split; [done|]).
    rewrite (cn_edges _ _ _ _ _ _ _ _ Hc). unfold Entity_deref. simpl.
    by rewrite lookup_insert_eq.
Qed.

Lemma wf_World_stale_slots : wf World_stale_slots.
Proof. destruct (wf_World_init 1 1) as [? ? ? ? ? ? ?]. split; done. Qed.

Lemma fresh_entity_and_record_witness :
  item_liveb (nodes (graph World_stale_slots)) 7 = false /\
  item_liveb (edges (graph World_stale_slots)) 7 = false /\
  wf World_stale_slots /\
  (exists n' w',
     Serializer_Graph_SetNode 7 [0] 1 blank_node World_stale_slots = Done (n', w') /\
     n_id n' = 7 /\
     Entity_deref (nodes (graph w')) (n_entity n') = Some (mkEntity 0 NULL)) /\
  (exists e' w',
     Serializer_Graph_SetEdge 1 7 0 1 0 blank_edge World_stale_slots = Done (e', w') /\
     e_id e' = 7 /\ relationID e' = 0 /\ srcNodeID e' = 0 /\ destNodeID e' = 1 /\
     Entity_deref (edges (graph w')) (e_entity e') = Some (mkEntity 0 NULL)).
Proof.
  assert (Hwf : wf World_stale_slots) by apply wf_World_stale_slots.
  assert (Hcnt : (1 <= length [0])%nat) by (simpl; lia).
  assert (Hv : Forall (fun l => index_ok l (labels (graph World_stale_slots)) = true)
                      (take 1 [0])) by (repeat constructor).
  assert (Hid : 0 <= 7 < 2 ^ 63) by lia.
  assert (Hmem : brk World_stale_slots + BLOCK_STRIDE <= HEAP_END)
    by (vm_compute; discriminate).
  split; [reflexivity|]. split; [reflexivity|]. split; [exact Hwf|].
  exact (fresh_entity_and_record World_stale_slots 7 [0] 1%nat blank_node 7 0 1 0 1
           blank_edge eq_refl eq_refl Hcnt Hv Hwf eq_refl eq_refl Hid Hmem).
Defined.

(** ** Further properties of the routines *)

Lemma multi_absent_as_single w s d id r :
  cell (graph w) (Z.to_nat r) s d = None ->
  _OptimizedMultiEdgeFormConnection s d id r w
  = _OptimizedSingleEdgeFormConnection s d id r w.
Proof.
  destruct w as [g h b mv fl]. simpl. intros Hcell.
  unfold _OptimizedSingleEdgeFormConnection. multi_unfold. simpl.
  destruct (index_ok r (relations g)); simpl; [|done].
  do 4 (try rewrite cell_from_option, Hcell; simpl; try reflexivity;
        destruct fl as [|[] fl]; simpl; try reflexivity).
  all: try rewrite cell_from_option, Hcell; reflexivity.
Qed.

(** X1: on a cell that holds no value the multi-edge routine is the
    single-edge routine: both end in the same outcome from every world,
    whatever the matrix writes report. *)
Theorem multi_on_empty_cell_is_single w s d id r :
  cell (graph w) (Z.to_nat r) s d = None ->
  _OptimizedMultiEdgeFormConnection s d id r w
  = _OptimizedSingleEdgeFormConnection s d id r w.
Proof. apply multi_absent_as_single. Qed.

Lemma multi_on_empty_cell_is_single_witness :
  cell (graph failing_forward_write) (Z.to_nat 0) 0 1 = None /\
  _OptimizedMultiEdgeFormConnection 0 1 10 0 failing_forward_write
  = _OptimizedSingleEdgeFormConnection 0 1 10 0 failing_forward_write.
Proof.
  split; [reflexivity|].
  apply (multi_on_empty_cell_is_single failing_forward_write 0 1 10 0).
  reflexivity.
Defined.

Lemma single_connect_done w w' s d id r :
  _OptimizedSingleEdgeFormConnection s d id r w = Done (tt, w') ->
  index_ok r (relations (graph w)) = true /\
  w' = mkWorld (connect_effect s d id (Z.to_nat r) (graph w)) (arrays w) (brk w)
               (realloc_moves w) (drop 4 (grb_faults w)).
Proof.
  destruct w as [g h b mv fl]. simpl.
  unfold _OptimizedSingleEdgeFormConnection, Graph_GetRelationMatrix,
    Graph_GetAdjacencyMatrix, GrB_Matrix_setElement_BOOL,
    GrB_Matrix_setElement_UINT64, GrB_Matrix_setElement, grb_next_fault,
    GraphStatistics_IncEdgeCount.
  prog_unfold. simpl.
  destruct (index_ok r (relations g)) eqn:Hr; simpl; [|done].
  do 4 (try (destruct fl as [|[] fl]; simpl; try done)).
  all: destruct (index_ok r (edge_count (stats g))); simpl; [|done].
  all: intros [= <-]; split; [done|].
  all: unfold upd_graph, connect_effect; simpl; by rewrite rel_write_both.
Qed.

(** X2: the single-edge routine returns only after all four matrix writes
    and the counter update have taken effect: when it returns, both
    adjacency bits are set, the relation cell and its transpose cell hold
    the edge id, the counter of the relation type is bumped, and the heap
    is as it was.  A write that reports failure never lets it return. *)
Theorem single_connect_all_or_nothing w w' s d id r :
  _OptimizedSingleEdgeFormConnection s d id r w = Done (tt, w') ->
  graph w' = connect_effect s d id (Z.to_nat r) (graph w) /\
  cell (graph w') (Z.to_nat r) s d = Some id /\
  cell_T (graph w') (Z.to_nat r) d s = Some id /\
  rg_matrix (adjacency_matrix (graph w')) !! (s, d) = Some true /\
  rg_transposed (adjacency_matrix (graph w')) !! (d, s) = Some true /\
  arrays w' = arrays w /\ brk w' = brk w /\
  Forall (fun failed => failed = false) (take 4 (grb_faults w)).
Proof.
  intros Hrun. pose proof Hrun as Hfl.
  destruct (single_connect_done _ _ _ _ _ _ Hrun) as [Hr ->]. simpl.
  pose proof (index_ok_lt _ _ Hr) as Hlt.
  rewrite cell_connect_effect, cell_T_connect_effect by done.
  rewrite !decide_True by done. rewrite !lookup_insert_eq.
  repeat (split; [done|]).
  revert Hfl. destruct w as [g h b mv fl]. simpl.
  unfold _OptimizedSingleEdgeFormConnection, Graph_GetRelationMatrix,
    Graph_GetAdjacencyMatrix, GrB_Matrix_setElement_BOOL,
    GrB_Matrix_setElement_UINT64, GrB_Matrix_setElement, grb_next_fault.
  prog_unfold. simpl in *. rewrite Hr. simpl.
  do 4 (try (destruct fl as [|[] fl]; simpl; try done));
    intros _; by repeat constructor.
Qed.

Lemma single_connect_all_or_nothing_witness :
  let w' := upd_graph (connect_effect 0 1 10 (Z.to_nat 0)) (World_init 0 1) in
  _OptimizedSingleEdgeFormConnection 0 1 10 0 (World_init 0 1) = Done (tt, w') /\
  cell (graph w') 0 0 1 = Some 10 /\
  cell_T (graph w') 0 1 0 = Some 10 /\
  arrays w' = arrays (World_init 0 1).
Proof.
  intros w'.
  assert (Hrun : _OptimizedSingleEdgeFormConnection 0 1 10 0 (World_init 0 1)
                 = Done (tt, w')) by (apply single_connect_run; reflexivity).
  split; [exact Hrun|].
  destruct (single_connect_all_or_nothing (World_init 0 1) w' 0 1 10 0 Hrun)
    as (_ & Hc & Ht & _ & _ & Ha & _).
  split; [exact Hc|]. split; [exact Ht|exact Ha].
Defined.

(** X3: a single-edge insertion on a multi-tagged cell replaces the whole
    enumeration by the one new id and abandons the sequence: the array
    stays on the heap as it was, and no relation cell refers to it any
    more. *)
Theorem single_connect_abandons_sequence w id s d r e x :
  wf w ->
  grb_faults w = [] ->
  item_liveb (edges (graph w)) id = false ->
  index_ok r (relations (graph w)) = true ->
  0 <= id < 2 ^ 63 ->
  cell (graph w) (Z.to_nat r) s d = Some x ->
  SINGLE_EDGE x = false ->
  exists w' a,
    Serializer_Graph_SetEdge 0 id s d r e w = Done (mkEdge id id r s d, w') /\
    arrays w !! CLEAR_MSB x = Some a /\
    edges_between w (Z.to_nat r) s d = arr_items a /\
    (2 <= length (arr_items a))%nat /\
    arrays w' !! CLEAR_MSB x = Some a /\
    edges_between w' (Z.to_nat r) s d = [id] /\
    (forall r2 s2 d2 x2,
       cell (graph w') r2 s2 d2 = Some x2 ->
       SINGLE_EDGE x2 = false -> CLEAR_MSB x2 <> CLEAR_MSB x).
Proof.
  intros Hwf Hfl Hlive Hr Hid Hc Hx.
  destruct (wf_cells _ Hwf _ _ _ _ Hc) as [_ Hm].
  destruct (Hm Hx) as (a & Ha & Hlen).
  pose proof (index_ok_lt _ _ Hr) as Hlt.
  pose proof (index_ok_stats _ _ Hwf Hr) as Hst.
  rewrite SetEdge_run by done. unfold connect_by.
  rewrite bool_decide_eq_false_2 by (intros H; by apply H).
  rewrite single_connect_run; [|by destruct w|by destruct w as [[] ? ? ? ?]..].
  exists (upd_graph (connect_effect s d id (Z.to_nat r))
            (upd_graph (set_edges (fresh_slot (edges (graph w)) id)) w)), a.
  split; [done|]. split; [done|]. split.
  { unfold edges_between, cell_ids. rewrite Hc. simpl. by rewrite Hx, Ha. }
  split; [done|]. split; [by destruct w|]. split.
  - unfold edges_between. destruct w as [[] ? ? ? ?]. simpl in *.
    rewrite cell_connect_effect by done. rewrite decide_True by done. simpl.
    unfold cell_ids. by rewrite SINGLE_EDGE_small.
  - intros r2 s2 d2 x2. destruct w as [[] ? ? ? ?]. simpl in *.
    rewrite cell_connect_effect by done. case_decide as Heq.
    + intros [= <-] Ht. by rewrite SINGLE_EDGE_small in Ht.
    + intros Hc2 Ht Hp. apply Heq.
      by apply (wf_sep _ Hwf r2 s2 d2 x2 (Z.to_nat r) s d x).
Qed.

Lemma single_connect_abandons_sequence_witness :
  wf World_two_parallel /\
  cell (graph World_two_parallel) (Z.to_nat 0) 0 1 = Some (SET_MSB 4096) /\
  SINGLE_EDGE (SET_MSB 4096) = false /\
  exists w' a,
    Serializer_Graph_SetEdge 0 12 0 1 0 blank_edge World_two_parallel
    = Done (mkEdge 12 12 0 0 1, w') /\
    arrays w' !! CLEAR_MSB (SET_MSB 4096) = Some a /\
    arr_items a = [10; 11] /\
    edges_between w' (Z.to_nat 0) 0 1 = [12].
Proof.
  assert (Hwf : wf World_two_parallel) by apply wf_World_two_parallel.
  assert (Hid : 0 <= 12 < 2 ^ 63) by lia.
  split; [exact Hwf|]. split; [reflexivity|]. split; [reflexivity|].
  destruct (single_connect_abandons_sequence World_two_parallel 12 0 1 0 blank_edge
              (SET_MSB 4096) Hwf eq_refl eq_refl eq_refl Hid eq_refl eq_refl)
    as (w' & a & Hrun & Ha & Hb & _ & Ha' & Hb' & _).
  exists w', a. split; [exact Hrun|]. split; [exact Ha'|]. split; [|exact Hb'].
  rewrite <- Hb. reflexivity.
Defined.

Lemma loads_replay cs w w' :
  loads cs w w' ->
  forall r s d, edges_between w' r s d = replay r s d (edges_between w r s d) cs.
Proof.
  induction 1 as [w|c cs w w1 w' Hc _ IH]; intros r s d; [done|].
  rewrite IH. unfold replay. simpl. f_equal. unfold replay_step.
  destruct (decide (on_cell r s d c)) as [Hon|Hoff].
  - apply on_cell_target in Hon. unfold target in Hon. simplify_eq.
    exact (cn_between _ _ _ _ _ _ _ _ Hc).
  - apply (cn_between_other _ _ _ _ _ _ _ _ Hc).
    intros Heq. apply Hoff. by apply on_cell_target.
Qed.

(** X4: reading any cell back after a load that mixes the two routines:
    start from what the cell enumerated before and go through the calls in
    order; a multi-edge insertion on the cell appends its id, a
    single-edge insertion on the cell leaves only its own id, and a call
    on another cell changes nothing. *)
Theorem mixed_load_readback w cs :
  load_pre w cs ->
  exists w',
    load_edges cs w = Done (tt, w') /\
    forall r s d, edges_between w' r s d = replay r s d (edges_between w r s d) cs.
Proof.
  intros Hpre. destruct (load_edges_ok cs w Hpre) as (w' & Hrun & Hl).
  exists w'. split; [done|]. by apply loads_replay.
Qed.

Lemma mixed_load_readback_witness :
  load_pre (World_init 0 1) revert_load /\
  exists w',
    load_edges revert_load (World_init 0 1) = Done (tt, w') /\
    edges_between w' 0 0 1 = [12] /\
    edges_between w' 0 1 0 = [].
Proof.
  assert (Hpre : load_pre (World_init 0 1) revert_load).
  { split.
    - apply wf_World_init.
    - reflexivity.
    - repeat constructor.
    - repeat constructor; simpl; lia.
    - repeat constructor.
    - apply (bool_decide_unpack _). vm_compute. exact I.
    - vm_compute. discriminate. }
  split; [exact Hpre|].
  destruct (mixed_load_readback (World_init 0 1) revert_load Hpre)
    as (w' & Hrun & Hb).
  exists w'. split; [exact Hrun|]. split; rewrite Hb; reflexivity.
Defined.

Lemma load_pre_with_flag f w cs :
  load_pre w cs -> load_pre w (with_flag f <$> cs).
Proof.
  intros [Hwf Hfl Hrel Hid Hnew Hnd Hmem].
  assert (Hids : er_id <$> (with_flag f <$> cs) = er_id <$> cs).
  { rewrite <- list_fmap_compose. by apply list_fmap_ext. }
  split; try done.
  - by apply Forall_fmap.
  - by apply Forall_fmap.
  - by apply Forall_fmap.
  - by rewrite Hids.
  - by rewrite length_fmap.
Qed.

Lemma SetEdge_flag_irrelevant f id s d r e w :
  item_liveb (edges (graph w)) id = false ->
  cell (graph w) (Z.to_nat r) s d = None ->
  Serializer_Graph_SetEdge f id s d r e w = Serializer_Graph_SetEdge 0 id s d r e w.
Proof.
  intros Hlive Hc. rewrite !SetEdge_run by done. unfold connect_by.
  rewrite (bool_decide_eq_false_2 (0 <> 0)) by (intros H; by apply H).
  case_bool_decide; [|done].
  rewrite multi_absent_as_single; [done|]. by destruct w as [[] ? ? ? ?].
Qed.

Lemma load_flags_agree f cs : forall w,
  load_pre w (with_flag 0 <$> cs) ->
  NoDup (target <$> cs) ->
  (forall c, c ∈ cs ->
     cell (graph w) (Z.to_nat (er_rel c)) (er_src c) (er_dest c) = None) ->
  exists w',
    load_edges (with_flag f <$> cs) w = Done (tt, w') /\
    load_edges (with_flag 0 <$> cs) w = Done (tt, w').
Proof.
  induction cs as [|c cs IH]; intros w Hpre Hnd Habs.
  - exists w. done.
  - rewrite fmap_cons in Hnd. apply NoDup_cons in Hnd as [Hni Hnd].
    pose proof Hpre as [Hwf Hfl Hrel Hid Hnew _ Hmem].
    rewrite fmap_cons in Hrel, Hid, Hnew.
    apply Forall_cons in Hrel as [Hr _]. apply Forall_cons in Hid as [Hi _].
    apply Forall_cons in Hnew as [Hn _]. simpl in Hr, Hi, Hn.
    destruct (SetEdge_ok 0 (er_id c) (er_src c) (er_dest c) (er_rel c)
                blank_edge w) as (w1 & Hrun & Hc); try done.
    { rewrite fmap_cons in Hmem. simpl in Hmem. unfold BLOCK_STRIDE in *. lia. }
    assert (Hc0 : cell (graph w) (Z.to_nat (er_rel c)) (er_src c) (er_dest c) = None)
      by (apply Habs, elem_of_cons; by left).
    destruct (IH w1) as (w' & Hf & H0).
    + exact (load_pre_step (with_flag 0 c) (with_flag 0 <$> cs) w w1 Hpre Hc).
    + done.
    + intros c' Hin.
      rewrite (cn_cell_other _ _ _ _ _ _ _ _ Hc).
      * apply Habs, elem_of_cons. by right.
      * intros Heq. apply Hni. apply list_elem_of_fmap. exists c'. by split.
    + assert (Hrunf : set_edge_of (with_flag f c) w
                      = set_edge_of (with_flag 0 c) w)
        by (by apply SetEdge_flag_irrelevant).
      assert (Hrun0 : set_edge_of (with_flag 0 c) w
                      = Done (mkEdge (er_id c) (er_id c) (er_rel c) (er_src c)
                                     (er_dest c), w1)) by exact Hrun.
      exists w'. rewrite !fmap_cons.
      change (load_edges (?x :: ?l) w)
        with (match set_edge_of x w with
              | Done (_, w2) => load_edges l w2
              | Fatal => Fatal
              end).
      rewrite Hrunf, Hrun0. done.
Qed.

(** X5: on a load with no two edges on the same cell, into cells that hold
    no value, the flag makes no difference: loading every edge through the
    multi-edge routine and loading every edge through the single-edge
    routine end in the very same world. *)
Theorem fast_path_equals_general_path f w cs :
  load_pre w cs ->
  NoDup (target <$> cs) ->
  (forall c, c ∈ cs ->
     cell (graph w) (Z.to_nat (er_rel c)) (er_src c) (er_dest c) = None) ->
  exists w',
    load_edges (with_flag f <$> cs) w = Done (tt, w') /\
    load_edges (with_flag 0 <$> cs) w = Done (tt, w').
Proof.
  intros Hpre Hnd Habs. apply load_flags_agree; try done.
  by apply load_pre_with_flag.
Qed.

Lemma load_pre_there_and_back : load_pre (World_init 2 1) there_and_back.
Proof.
  split.
  - apply wf_World_init.
  - reflexivity.
  - repeat constructor.
  - repeat constructor; simpl; lia.
  - repeat constructor.
  - apply (bool_decide_unpack _). vm_compute. exact I.
  - vm_compute. discriminate.
Qed.

Lemma fast_path_equals_general_path_witness :
  load_pre (World_init 2 1) there_and_back /\
  NoDup (target <$> there_and_back) /\
  exists w',
    load_edges (with_flag 1 <$> there_and_back) (World_init 2 1) = Done (tt, w') /\
    load_edges (with_flag 0 <$> there_and_back) (World_init 2 1) = Done (tt, w').
Proof.
  assert (Hpre : load_pre (World_init 2 1) there_and_back)
    by apply load_pre_there_and_back.
  assert (Hnd : NoDup (target <$> there_and_back))
    by (apply (bool_decide_unpack _); vm_compute; exact I).
  split; [exact Hpre|]. split; [exact Hnd|].
  apply (fast_path_equals_general_path 1 (World_init 2 1) there_and_back Hpre Hnd).
  intros c _. apply cell_Graph_empty.
Defined.

Lemma loads_slots cs w w' :
  loads cs w w' ->
  forall k,
    items (edges (graph w')) !! k
    = if decide (k ∈ er_id <$> cs) then Some (mkItem false (mkEntity 0 NULL))
      else items (edges (graph w)) !! k.
Proof.
  induction 1 as [w|c cs w w1 w' Hc _ IH]; intros k.
  - rewrite decide_False; [done|]. by intros ?%elem_of_nil.
  - rewrite IH, (cn_edges _ _ _ _ _ _ _ _ Hc), fmap_cons.
    unfold fresh_slot. simpl. rewrite lookup_insert.
    destruct (decide (k ∈ er_id <$> cs)) as [Hin|Hnin].
    + rewrite decide_True; [done|]. apply elem_of_cons. by right.
    + destruct (decide (er_id c = k)) as [<-|Hne].
      * rewrite decide_True; [done|]. apply elem_of_cons. by left.
      * rewrite decide_False; [done|]. by intros [?|?]%elem_of_cons.
Qed.

(** X6: a load of edges touches the edge store and the connectivity
    matrices only.  The node store, the label matrices, the node-label
    matrix and both deletion lists are as before; in the edge store the
    slots of the inserted ids are live with no properties, and every other
    slot is as before. *)
Theorem edge_load_frame w cs :
  load_pre w cs ->
  exists w',
    load_edges cs w = Done (tt, w') /\
    nodes (graph w') = nodes (graph w) /\
    labels (graph w') = labels (graph w) /\
    node_labels (graph w') = node_labels (graph w) /\
    Serializer_Graph_GetDeletedNodesList (graph w')
    = Serializer_Graph_GetDeletedNodesList (graph w) /\
    Serializer_Graph_GetDeletedEdgesList (graph w')
    = Serializer_Graph_GetDeletedEdgesList (graph w) /\
    forall k,
      items (edges (graph w')) !! k
      = if decide (k ∈ er_id <$> cs) then Some (mkItem false (mkEntity 0 NULL))
        else items (edges (graph w)) !! k.
Proof.
  intros Hpre. destruct (load_edges_ok cs w Hpre) as (w' & Hrun & Hl).
  destruct (loads_frame _ _ _ Hl) as (Hn & Hlab & Hnl & Hdel & _).
  exists w'. split; [done|]. split; [done|]. split; [done|]. split; [done|].
  unfold Serializer_Graph_GetDeletedNodesList, Serializer_Graph_GetDeletedEdgesList.
  rewrite Hn. split; [done|]. split; [done|]. by apply loads_slots.
Qed.

Lemma edge_load_frame_witness :
  load_pre (World_init 2 1) mixed_load /\
  exists w',
    load_edges mixed_load (World_init 2 1) = Done (tt, w') /\
    nodes (graph w') = nodes (graph (World_init 2 1)) /\
    items (edges (graph w')) !! 11 = Some (mkItem false (mkEntity 0 NULL)) /\
    items (edges (graph w')) !! 13 = None.
Proof.
  assert (Hpre : load_pre (World_init 2 1) mixed_load) by apply load_pre_mixed_load.
  split; [exact Hpre|].
  destruct (edge_load_frame (World_init 2 1) mixed_load Hpre)
    as (w' & Hrun & Hn & _ & _ & _ & _ & Hs).
  exists w'. split; [exact Hrun|]. split; [exact Hn|].
  split; rewrite Hs; reflexivity.
Defined.

Lemma loads_adj_exact cs w w' :
  loads cs w w' ->
  forall s d,
    rg_matrix (adjacency_matrix (graph w')) !! (s, d)
    = (if decide ((s, d) ∈ ends <$> cs) then Some true
       else rg_matrix (adjacency_matrix (graph w)) !! (s, d)) /\
    rg_transposed (adjacency_matrix (graph w')) !! (d, s)
    = (if decide ((s, d) ∈ ends <$> cs) then Some true
       else rg_transposed (adjacency_matrix (graph w)) !! (d, s)).
Proof.
  induction 1 as [w|c cs w w1 w' Hc _ IH]; intros s d.
  - rewrite decide_False; [done|]. by intros ?%elem_of_nil.
  - destruct (IH s d) as [-> ->]. rewrite (cn_adj _ _ _ _ _ _ _ _ Hc), fmap_cons.
    simpl. rewrite !lookup_insert.
    destruct (decide ((s, d) ∈ ends c :: (ends <$> cs))) as [Hin|Hnin];
      destruct (decide ((s, d) ∈ ends <$> cs)) as [Hin'|Hnin'].
    + done.
    + apply elem_of_cons in Hin as [Heq|?]; [|done].
      unfold ends in Heq. simplify_eq. by rewrite !decide_True.
    + destruct Hnin. apply elem_of_cons. by right.
    + assert (Hne : (s, d) <> ends c)
        by (intros Heq; apply Hnin, elem_of_cons; by left).
      unfold ends in Hne.
      rewrite !decide_False; [done|intros [= ? ?]; by simplify_eq..].
Qed.

(** X7: the adjacency matrix after a load is the one before it with true
    at exactly the ordered pairs the load connects, whatever the relation
    type and however many edges join a pair; no other entry appears, and
    the transpose holds the same at swapped coordinates. *)
Theorem adjacency_after_load w cs :
  load_pre w cs ->
  exists w',
    load_edges cs w = Done (tt, w') /\
    forall s d,
      rg_matrix (adjacency_matrix (graph w')) !! (s, d)
      = (if decide ((s, d) ∈ ends <$> cs) then Some true
         else rg_matrix (adjacency_matrix (graph w)) !! (s, d)) /\
      rg_transposed (adjacency_matrix (graph w')) !! (d, s)
      = (if decide ((s, d) ∈ ends <$> cs) then Some true
         else rg_transposed (adjacency_matrix (graph w)) !! (d, s)).
Proof.
  intros Hpre. destruct (load_edges_ok cs w Hpre) as (w' & Hrun & Hl).
  exists w'. split; [done|]. by apply loads_adj_exact.
Qed.

Lemma adjacency_after_load_witness :
  load_pre (World_init 2 1) mixed_load /\
  exists w',
    load_edges mixed_load (World_init 2 1) = Done (tt, w') /\
    rg_matrix (adjacency_matrix (graph w')) !! (1, 0) = Some true /\
    rg_matrix (adjacency_matrix (graph w')) !! (0, 0) = None.
Proof.
  assert (Hpre : load_pre (World_init 2 1) mixed_load) by apply load_pre_mixed_load.
  split; [exact Hpre|].
  destruct (adjacency_after_load (World_init 2 1) mixed_load Hpre)
    as (w' & Hrun & Ha).
  exists w'. split; [exact Hrun|].
  split; [exact (proj1 (Ha 1 0))|exact (proj1 (Ha 0 0))].
Defined.

(** X8: when the library calls succeed, the projection reflects the label
    matrices as they are now.  From any such world it returns; each
    label's column of the node-label matrix becomes the diagonal of that
    label's matrix, stale entries of the column included; the columns
    beyond the label count and everything but the forward node-label
    matrix are left as they were. *)
Theorem SetNodeLabels_projects_columns w :
  grb_faults w = [] ->
  exists NL',
    Serializer_Graph_SetNodeLabels w = Done (tt, project_to NL' w) /\
    (forall k j,
       0 <= j < Z.of_nat (length (labels (graph w))) ->
       NL' !! (k, j) = label_bit (graph w) (Z.to_nat j) k) /\
    (forall k j,
       ~ 0 <= j < Z.of_nat (length (labels (graph w))) ->
       NL' !! (k, j) = node_label_bit (graph w) k j).
Proof.
  intros Hfl. destruct (SetNodeLabels_run w Hfl) as (NL' & Hrun & Hb).
  exists NL'. split; [done|]. split; intros k j Hj; rewrite Hb.
  - by rewrite decide_True.
  - by rewrite decide_False.
Qed.

Lemma SetNodeLabels_projects_columns_witness :
  grb_faults World_stale_labels = [] /\
  exists NL',
    Serializer_Graph_SetNodeLabels World_stale_labels
    = Done (tt, project_to NL' World_stale_labels) /\
    NL' !! (0, 0) = Some true /\
    NL' !! (0, 1) = None /\
    NL' !! (1, 1) = Some true /\
    NL' !! (5, 7) = Some true.
Proof.
  split; [reflexivity|].
  destruct (SetNodeLabels_projects_columns World_stale_labels eq_refl)
    as (NL' & Hrun & Hin & Hout).
  exists NL'. split; [exact Hrun|].
  assert (H0 : 0 <= 0 < Z.of_nat (length (labels (graph World_stale_labels))))
    by (simpl; lia).
  assert (H1 : 0 <= 1 < Z.of_nat (length (labels (graph World_stale_labels))))
    by (simpl; lia).
  assert (H7 : ~ 0 <= 7 < Z.of_nat (length (labels (graph World_stale_labels))))
    by (simpl; lia).
  rewrite (Hin 0 0 H0), (Hin 0 1 H1), (Hin 1 1 H1), (Hout 5 7 H7).
  repeat split; vm_compute; reflexivity.
Defined.

(** X9: when the library calls succeed, projecting twice in a row is
    projecting once. *)
Theorem SetNodeLabels_idempotent w :
  grb_faults w = [] ->
  (Serializer_Graph_SetNodeLabels;; Serializer_Graph_SetNodeLabels) w
  = Serializer_Graph_SetNodeLabels w.
Proof.
  intros Hfl.
  destruct (SetNodeLabels_run w Hfl) as (NL1 & Hrun1 & Hb1).
  assert (Hfl1 : grb_faults (project_to NL1 w) = []) by (by destruct w).
  destruct (SetNodeLabels_run (project_to NL1 w) Hfl1) as (NL2 & Hrun2 & Hb2).
  unfold mbind, prog_bind. rewrite Hrun1, Hrun2, project_to_twice.
  do 3 f_equal. apply map_eq. intros [k j]. rewrite Hb1, Hb2.
  assert (Hlab : labels (graph (project_to NL1 w)) = labels (graph w))
    by (by destruct w as [[] ? ? ? ?]).
  rewrite Hlab. case_decide.
  - unfold label_bit. by rewrite Hlab.
  - assert (Hn : node_label_bit (graph (project_to NL1 w)) k j = NL1 !! (k, j))
      by (by destruct w as [[] ? ? ? ?]).
    rewrite Hn, Hb1. by rewrite decide_False.
Qed.

Lemma SetNodeLabels_idempotent_witness :
  grb_faults World_stale_labels = [] /\
  (Serializer_Graph_SetNodeLabels;; Serializer_Graph_SetNodeLabels) World_stale_labels
  = Serializer_Graph_SetNodeLabels World_stale_labels.
Proof.
  split; [reflexivity|].
  apply (SetNodeLabels_idempotent World_stale_labels). reflexivity.
Defined.

Lemma drop_S_tail {A} (n : nat) (l : list A) : drop (S n) l = drop n (tail l).
Proof. destruct l; simpl; [by rewrite drop_nil|done]. Qed.

Lemma with_faults_same w : with_faults (grb_faults w) w = w.
Proof. by destruct w. Qed.

Lemma with_faults_project fl1 fl2 NL1 NL2 w :
  with_faults fl2 (project_to NL2 (with_faults fl1 (project_to NL1 w)))
  = with_faults fl2 (project_to NL2 w).
Proof. by destruct w as [[? ? ? ? [] ? ?] ? ? ? ?]. Qed.

Lemma answer_drop fl n m : answer (drop n fl) m = answer fl (n + m).
Proof. unfold answer. by rewrite lookup_drop. Qed.

Lemma vector_after_shift fl ls i u t :
  vector_after (drop 2 fl) ls (i + 1) (vector_after fl ls i u 1) t
  = vector_after fl ls i u (S t).
Proof.
  induction t as [|t IH]; [done|].
  change (vector_after (drop 2 fl) ls (i + 1) (vector_after fl ls i u 1) (S t))
    with (if answer (drop 2 fl) (2 * t)
          then vector_after (drop 2 fl) ls (i + 1) (vector_after fl ls i u 1) t
          else diag_entries
                 (from_option rg_matrix ∅ (ls !! Z.to_nat (i + 1 + Z.of_nat t)))).
  change (vector_after fl ls i u (S (S t)))
    with (if answer fl (2 * S t) then vector_after fl ls i u (S t)
          else diag_entries
                 (from_option rg_matrix ∅ (ls !! Z.to_nat (i + Z.of_nat (S t))))).
  rewrite answer_drop, IH.
  replace (2 + 2 * t)%nat with (2 * S t)%nat by lia.
  replace (i + 1 + Z.of_nat t) with (i + Z.of_nat (S t)) by lia.
  done.
Qed.

Lemma project_round_null i w :
  index_ok i (labels (graph w)) = true ->
  project_round i None w = Done (None, w).
Proof.
  intros Hi. unfold project_round, Graph_GetLabelMatrix, GxB_Vector_diag,
    GxB_Col_subassign. unfold mbind, prog_bind, mret, prog_ret. by rewrite Hi.
Qed.

Lemma project_loop_null cnt : forall i w,
  0 <= i -> i + Z.of_nat cnt <= Z.of_nat (length (labels (graph w))) ->
  for_loop_with i cnt None project_round w = Done (None, w).
Proof.
  induction cnt as [|cnt IH]; intros i w Hi Hle; [done|].
  assert (Hok : index_ok i (labels (graph w)) = true).
  { unfold index_ok. apply bool_decide_eq_true_2. lia. }
  simpl. unfold mbind, prog_bind. rewrite project_round_null by done.
  apply IH; lia.
Qed.

Lemma project_loop_exact cnt : forall i u w,
  0 <= i -> i + Z.of_nat cnt <= Z.of_nat (length (labels (graph w))) ->
  exists NL',
    for_loop_with i cnt (Some u) project_round w
    = Done (Some (vector_after (grb_faults w) (labels (graph w)) i u cnt),
            with_faults (drop (2 * cnt) (grb_faults w)) (project_to NL' w)) /\
    forall k c,
      NL' !! (k, c)
      = if decide (i <= c < i + Z.of_nat cnt)
        then if answer (grb_faults w) (2 * Z.to_nat (c - i) + 1)
             then node_label_bit (graph w) k c
             else vector_after (grb_faults w) (labels (graph w)) i u
                    (S (Z.to_nat (c - i))) !! k
        else node_label_bit (graph w) k c.
Proof.
  induction cnt as [|cnt IH]; intros i u w Hi Hle.
  - exists (rg_matrix (node_labels (graph w))). split.
    + simpl. rewrite project_to_same. by destruct w.
    + intros k c. by rewrite decide_False by lia.
  - assert (Hok : index_ok i (labels (graph w)) = true).
    { unfold index_ok. apply bool_decide_eq_true_2. lia. }
    set (fl := grb_faults w). set (ls := labels (graph w)).
    set (u1 := vector_after fl ls i u 1).
    set (NL1 := if answer fl 1 then rg_matrix (node_labels (graph w))
                else col_assign (rg_matrix (node_labels (graph w))) u1 i).
    set (w1 := with_faults (drop 2 fl) (project_to NL1 w)).
    assert (Hrun1 : project_round i (Some u) w = Done (Some u1, w1)).
    { rewrite project_round_run by done. subst w1 NL1 u1 fl ls. simpl.
      unfold answer. rewrite Z.add_0_r. done. }
    assert (Hls1 : labels (graph w1) = ls)
      by (subst w1 ls; by destruct w as [[] ? ? ? ?]).
    assert (Hfl1 : grb_faults w1 = drop 2 fl) by done.
    destruct (IH (i + 1) u1 w1) as (NL' & Hrun & Hbits); [lia|rewrite Hls1; subst ls; lia|].
    rewrite Hls1, Hfl1 in Hrun, Hbits.
    exists NL'. split.
    + simpl. unfold mbind, prog_bind. rewrite Hrun1, Hrun.
      subst u1. rewrite vector_after_shift. subst w1.
      rewrite with_faults_project, drop_drop.
      by replace (2 + 2 * cnt)%nat with (2 * S cnt)%nat by lia.
    + intros k c. rewrite Hbits.
      assert (Hn1 : node_label_bit (graph w1) k c
                    = if decide (c = i)
                      then if answer fl 1 then node_label_bit (graph w) k c
                           else u1 !! k
                      else node_label_bit (graph w) k c).
      { subst w1 NL1. destruct w as [[] ? ? ? ?]. unfold node_label_bit. simpl.
        destruct (answer fl 1).
        - by case_decide.
        - rewrite col_assign_lookup. by case_decide. }
      rewrite Hn1.
      destruct (decide (c = i)) as [->|Hne].
      * rewrite decide_False by lia. rewrite decide_True by lia.
        replace (Z.to_nat (i - i)) with 0%nat by lia. done.
      * destruct (decide (i + 1 <= c < i + 1 + Z.of_nat cnt)) as [Hin|Hout].
        -- rewrite decide_True by lia. rewrite answer_drop.
           subst u1. rewrite vector_after_shift.
           replace (Z.to_nat (c - i)) with (S (Z.to_nat (c - (i + 1)))) by lia.
           replace (2 + (2 * Z.to_nat (c - (i + 1)) + 1))%nat
             with (2 * S (Z.to_nat (c - (i + 1))) + 1)%nat by lia.
           done.
        -- by rewrite decide_False by lia.
Qed.

Lemma SetNodeLabels_exact w :
  head (grb_faults w) <> Some true ->
  exists NL',
    Serializer_Graph_SetNodeLabels w
    = Done (tt, with_faults (drop (2 * length (labels (graph w)))
                                  (tail (grb_faults w)))
                  (project_to NL' w)) /\
    forall k c,
      NL' !! (k, c)
      = if decide (0 <= c < Z.of_nat (length (labels (graph w))))
        then if answer (tail (grb_faults w)) (2 * Z.to_nat c + 1)
             then node_label_bit (graph w) k c
             else vector_after (tail (grb_faults w)) (labels (graph w)) 0 ∅
                    (S (Z.to_nat c)) !! k
        else node_label_bit (graph w) k c.
Proof.
  intros Hhd.
  set (w0 := with_faults (tail (grb_faults w)) w).
  destruct (project_loop_exact (length (labels (graph w))) 0 ∅ w0)
    as (NL' & Hrun & Hb); [lia|subst w0; simpl; lia|].
  exists NL'. split.
  - unfold Serializer_Graph_SetNodeLabels, Graph_RequiredMatrixDim,
      Graph_LabelTypeCount, Graph_GetNodeLabelMatrix, GrB_Vector_new,
      GrB_Vector_free, grb_next_fault.
    unfold mbind, prog_bind, mret, prog_ret.
    assert (Hnew : match grb_faults w with
                   | [] => Done (false, w)
                   | b :: fs => Done (b, mkWorld (graph w) (arrays w) (brk w)
                                                 (realloc_moves w) fs)
                   end = Done (false, w0)).
    { subst w0. destruct w as [g h b mv [|[] fl]]; [done| |done].
      by destruct Hhd. }
    rewrite Hnew, Nat2Z.id.
    change (match for_loop_with 0 (length (labels (graph w))) (Some ∅)
                    project_round w0
            with Done (_, w') => Done (tt, w') | Fatal => Fatal end
            = Done (tt, with_faults (drop (2 * length (labels (graph w)))
                                          (tail (grb_faults w)))
                          (project_to NL' w))).
    change (labels (graph w0)) with (labels (graph w)) in Hrun.
    rewrite Hrun. subst w0. by destruct w as [[? ? ? ? [] ? ?] ? ? ? ?].
  - intros k c. rewrite Hb. subst w0. simpl.
    replace (c - 0) with c by lia. done.
Qed.

(** X13: the projection never aborts, whatever the library reports: none
    of the statuses of its calls is looked at.  From every world it
    returns, having used up some of the answers in store; of the graph
    only the forward node-label matrix may differ, and its columns beyond
    the label count are as they were; the heap is untouched. *)
Theorem SetNodeLabels_never_aborts w :
  exists NL' n,
    Serializer_Graph_SetNodeLabels w
    = Done (tt, with_faults (drop n (grb_faults w)) (project_to NL' w)) /\
    forall k c,
      ~ 0 <= c < Z.of_nat (length (labels (graph w))) ->
      NL' !! (k, c) = node_label_bit (graph w) k c.
Proof.
  destruct (decide (head (grb_faults w) = Some true)) as [Hhd|Hhd].
  - exists (rg_matrix (node_labels (graph w))), 1%nat. split; [|done].
    rewrite project_to_same.
    unfold Serializer_Graph_SetNodeLabels, Graph_RequiredMatrixDim,
      Graph_LabelTypeCount, Graph_GetNodeLabelMatrix, GrB_Vector_new,
      GrB_Vector_free, grb_next_fault.
    unfold mbind, prog_bind, mret, prog_ret.
    destruct w as [g h b mv [|[] fl]]; try done. simpl. rewrite Nat2Z.id.
    change (match for_loop_with 0 (length (labels g)) None project_round
                    (mkWorld g h b mv fl)
            with Done (_, w') => Done (tt, w') | Fatal => Fatal end
            = Done (tt, with_faults (drop 0 fl) (mkWorld g h b mv (true :: fl)))).
    rewrite project_loop_null by (simpl; lia). done.
  - destruct (SetNodeLabels_exact w Hhd) as (NL' & Hrun & Hb).
    exists NL', (S (2 * length (labels (graph w)))). split.
    + by rewrite Hrun, drop_S_tail.
    + intros k c Hc. rewrite Hb. by rewrite decide_False.
Qed.

(** X14: when the creation of the vector reports failure, the projection
    goes on with the null handle, every later call is turned down, and it
    returns with no column projected: the world is the one before, less
    the one answer used up. *)
Theorem SetNodeLabels_without_vector w fl :
  grb_faults w = true :: fl ->
  Serializer_Graph_SetNodeLabels w = Done (tt, with_faults fl w).
Proof.
  intros Hfl.
  unfold Serializer_Graph_SetNodeLabels, Graph_RequiredMatrixDim,
    Graph_LabelTypeCount, Graph_GetNodeLabelMatrix, GrB_Vector_new,
    GrB_Vector_free, grb_next_fault.
  unfold mbind, prog_bind, mret, prog_ret.
  destruct w as [g h b mv fl0]. simpl in *. subst fl0. rewrite Nat2Z.id.
  change (match for_loop_with 0 (length (labels g)) None project_round
                  (mkWorld g h b mv fl)
          with Done (_, w') => Done (tt, w') | Fatal => Fatal end
          = Done (tt, mkWorld g h b mv fl)).
  rewrite project_loop_null by (simpl; lia). done.
Qed.

Lemma SetNodeLabels_without_vector_witness :
  grb_faults World_failing_vector = [true; false] /\
  Serializer_Graph_SetNodeLabels World_failing_vector
  = Done (tt, with_faults [false] World_failing_vector) /\
  node_label_bit (graph (with_faults [false] World_failing_vector)) 0 1 = Some true /\
  node_label_bit (graph (with_faults [false] World_failing_vector)) 0 0 = None.
Proof.
  split; [reflexivity|]. split.
  - apply (SetNodeLabels_without_vector World_failing_vector [false]). reflexivity.
  - split; vm_compute; reflexivity.
Defined.



Lemma SetNode_round_skips id (L : list Z) i l w fs :
  grb_faults w = true :: fs ->
  0 <= i -> L !! Z.to_nat i = Some l ->
  index_ok l (labels (graph w)) = true ->
  SetNode_round id L i w
  = Done (tt, mkWorld (graph w) (arrays w) (brk w) (realloc_moves w) fs).
Proof.
  destruct w as [g h b mv fl]. simpl. intros -> Hi Hl Hok.
  unfold SetNode_round, array_arg, Graph_GetLabelMatrix,
    GrB_Matrix_setElement_BOOL, GrB_Matrix_setElement, grb_next_fault.
  prog_unfold. rewrite bool_decide_eq_true_2 by done. rewrite Hl. simpl.
  rewrite Hok. done.
Qed.

Lemma SetNode_round_writes id (L : list Z) i l w fs :
  grb_faults w = false :: fs ->
  0 <= i -> L !! Z.to_nat i = Some l ->
  index_ok l (labels (graph w)) = true ->
  SetNode_round id L i w
  = Done (tt, mkWorld (set_labels (label_write id (labels (graph w)) l) (graph w))
                      (arrays w) (brk w) (realloc_moves w) fs).
Proof.
  destruct w as [g h b mv fl]. simpl. intros -> Hi Hl Hok.
  unfold SetNode_round, array_arg, Graph_GetLabelMatrix,
    GrB_Matrix_setElement_BOOL, GrB_Matrix_setElement, grb_next_fault.
  prog_unfold. rewrite bool_decide_eq_true_2 by done. rewrite Hl. simpl.
  rewrite Hok. simpl. unfold upd_graph, label_write. simpl. do 3 f_equal.
  destruct g; simpl. f_equal. apply list_alter_ext; [|done].
  intros R HR. by rewrite HR.
Qed.

Lemma unfailed_nil L : unfailed [] L = L.
Proof. by destruct L. Qed.

Lemma SetNode_loop_faults id L : forall pre suf w,
  Forall (fun l => index_ok l (labels (graph w)) = true) L ->
  for_loop (Z.of_nat (length pre)) (length L) (SetNode_round id (pre ++ L ++ suf)) w
  = Done (tt, mkWorld
                (set_labels
                   (labels_written id (labels (graph w)) (unfailed (grb_faults w) L))
                   (graph w))
                (arrays w) (brk w) (realloc_moves w)
                (drop (length L) (grb_faults w))).
Proof.
  induction L as [|l L IH]; intros pre suf w Hv.
  - destruct w as [[] ? ? ? ?]. reflexivity.
  - destruct (grb_faults w) as [|failed fs] eqn:Hfl.
    { rewrite SetNode_loop by done. rewrite unfailed_nil, drop_nil.
      destruct w. simpl in *. by subst. }
    apply Forall_cons in Hv as [Hl Hv].
    change (for_loop ?i (length (l :: L)) ?b w)
      with (match b i w with
            | Done (_, w1) => for_loop (i + 1) (length L) b w1
            | Fatal => Fatal
            end).
    assert (Hlk : (pre ++ (l :: L) ++ suf) !! Z.to_nat (Z.of_nat (length pre)) = Some l)
      by (rewrite Nat2Z.id; by apply (list_lookup_middle pre (L ++ suf) l)).
    assert (Hpos : 0 <= Z.of_nat (length pre)) by lia.
    replace (Z.of_nat (length pre) + 1) with (Z.of_nat (length (pre ++ [l])))
      by (rewrite length_app; simpl; lia).
    destruct failed.
    + rewrite (SetNode_round_skips id _ _ l w fs) by done.
      replace (pre ++ (l :: L) ++ suf) with ((pre ++ [l]) ++ L ++ suf)
        by (by rewrite <- app_assoc).
      rewrite IH by (by destruct w). by destruct w.
    + rewrite (SetNode_round_writes id _ _ l w fs) by done.
      replace (pre ++ (l :: L) ++ suf) with ((pre ++ [l]) ++ L ++ suf)
        by (by rewrite <- app_assoc).
      rewrite IH.
      * by destruct w.
      * eapply Forall_impl; [exact Hv|]. intros l'. destruct w as [[] ? ? ? ?].
        unfold index_ok, label_write. simpl. by rewrite length_alter.
Qed.

Lemma unfailed_sub fl : forall L x, x ∈ unfailed fl L -> x ∈ L.
Proof.
  induction fl as [|[] fl IH]; intros [|l L] x; simpl; try done.
  - intros Hx. apply elem_of_cons. right. by apply IH.
  - intros [->|Hx]%elem_of_cons; apply elem_of_cons; [by left|right; by apply IH].
Qed.

(** X10: node creation never stops on a label write that reports failure:
    the status of the write is dropped, the label is skipped and the loop
    goes on.  Whatever the writes report, the call returns the record of
    the caller's id for a slot without properties; the labels set on the
    node are those whose write went through, and nothing else of the graph
    or of the heap changes. *)
Theorem SetNode_skips_failed_label_writes w id L label_count n :
  item_liveb (nodes (graph w)) id = false ->
  (label_count <= length L)%nat ->
  Forall (fun l => index_ok l (labels (graph w)) = true) (take label_count L) ->
  exists w',
    Serializer_Graph_SetNode id L label_count n w = Done (mkNode id id, w') /\
    w' = mkWorld (node_set id (unfailed (grb_faults w) (take label_count L)) (graph w))
                 (arrays w) (brk w) (realloc_moves w)
                 (drop label_count (grb_faults w)) /\
    forall j k,
      label_bit (graph w') j k
      = if decide (k = id /\ Z.of_nat j ∈ unfailed (grb_faults w) (take label_count L))
        then Some true else label_bit (graph w) j k.
Proof.
  intros Hlive Hcnt Hv.
  destruct (alloc_then_init _ _ Hlive) as (db1 & Ha & Hi).
  eexists. split; [|split; [reflexivity|]].
  - unfold Serializer_Graph_SetNode, alloc_node, on_nodes.
    prog_unfold. rewrite Ha.
    change (fun i : Z => _) with (SetNode_round id L).
    pose proof (SetNode_loop_faults id (take label_count L) [] (drop label_count L))
      as Hloop.
    rewrite take_drop, length_take_le in Hloop by done. simpl in Hloop.
    rewrite Hloop by (by destruct w as [[] ? ? ? ?]).
    destruct w as [[] ? ? ? ?]. simpl in *. unfold node_set. simpl. by rewrite Hi.
  - intros j k. destruct w as [[] ? ? ? ?]. unfold label_bit, node_set. simpl in *.
    apply labels_written_bit. apply Forall_forall. intros x Hx%unfailed_sub.
    rewrite Forall_forall in Hv. by apply Hv.
Qed.

Lemma SetNode_skips_failed_label_writes_witness :
  item_liveb (nodes (graph World_first_write_fails)) 3 = false /\
  exists w',
    Serializer_Graph_SetNode 3 [0; 1] 2 blank_node World_first_write_fails
    = Done (mkNode 3 3, w') /\
    label_bit (graph w') 0 3 = None /\
    label_bit (graph w') 1 3 = Some true.
Proof.
  assert (Hcnt : (2 <= length [0; 1])%nat) by (simpl; lia).
  assert (Hv : Forall (fun l => index_ok l (labels (graph World_first_write_fails))
                                = true) (take 2 [0; 1])) by (repeat constructor).
  split; [reflexivity|].
  destruct (SetNode_skips_failed_label_writes World_first_write_fails 3 [0; 1] 2
              blank_node eq_refl Hcnt Hv) as (w' & Hrun & _ & Hb).
  exists w'. split; [exact Hrun|]. split; rewrite Hb; reflexivity.
Defined.

Lemma mark_node_twice id R : mark_node id (mark_node id R) = mark_node id R.
Proof. unfold mark_node, set_rg_matrix. simpl. by rewrite insert_insert_eq. Qed.

Lemma labels_written_lookup id L : forall ls j,
  Forall (fun l => index_ok l ls = true) L ->
  labels_written id ls L !! j
  = (if decide (Z.of_nat j ∈ L) then mark_node id else fun R => R) <$> ls !! j.
Proof.
  induction L as [|l L IH]; intros ls j Hv.
  - unfold labels_written. cbn [foldl].
    case_decide as H; [by apply elem_of_nil in H|by destruct (ls !! j)].
  - apply Forall_cons in Hv as [Hl Hv].
    change (labels_written id ls (l :: L))
      with (labels_written id (label_write id ls l) L).
    assert (Hv' : Forall (fun l0 => index_ok l0 (label_write id ls l) = true) L).
    { eapply Forall_impl; [exact Hv|]. intros l'. unfold index_ok, label_write.
      by rewrite length_alter. }
    rewrite (IH _ _ Hv'). unfold label_write. rewrite list_lookup_alter.
    apply bool_decide_eq_true in Hl.
    change (fun R => set_rg_matrix (<[(id, id) := true]> (rg_matrix R)) R)
      with (mark_node id).
    destruct (decide (Z.to_nat l = j)) as [<-|Hne].
    + rewrite Z2Nat.id by lia.
      rewrite (decide_True (P := l ∈ l :: L)) by (apply elem_of_cons; by left).
      destruct (ls !! Z.to_nat l) as [R|]; simpl; [|done].
      case_decide; [by rewrite mark_node_twice|done].
    + assert (Hjl : Z.of_nat j <> l) by lia.
      destruct (decide (Z.of_nat j ∈ L)) as [Hin|Hnin].
      * rewrite decide_True; [done|]. apply elem_of_cons. by right.
      * rewrite decide_False; [done|]. by intros [?|?]%elem_of_cons.
Qed.

(** X11: the labels of a node are taken as a set: two label arrays with
    the same members, in any order and with any repetitions, make node
    creation end in the same world. *)
Theorem SetNode_labels_as_set w id L L' n :
  grb_faults w = [] ->
  item_liveb (nodes (graph w)) id = false ->
  Forall (fun l => index_ok l (labels (graph w)) = true) L ->
  (forall l, l ∈ L <-> l ∈ L') ->
  exists w',
    Serializer_Graph_SetNode id L (length L) n w = Done (mkNode id id, w') /\
    Serializer_Graph_SetNode id L' (length L') n w = Done (mkNode id id, w').
Proof.
  intros Hfl Hlive Hv Hset.
  assert (Hv' : Forall (fun l => index_ok l (labels (graph w)) = true) L').
  { rewrite Forall_forall in Hv. apply Forall_forall. intros l Hl.
    by apply Hv, Hset. }
  eexists. split.
  - rewrite SetNode_run; [done|done|done|done|by rewrite firstn_all].
  - rewrite SetNode_run; [|done|done|done|by rewrite firstn_all].
    assert (Heq : labels_written id (labels (graph w)) L'
                  = labels_written id (labels (graph w)) L).
    { apply list_eq. intros j. rewrite !labels_written_lookup by done.
      destruct (decide (Z.of_nat j ∈ L)) as [Hin|Hnin].
      - rewrite decide_True; [done|]. by apply Hset.
      - rewrite decide_False; [done|]. intros ?. by apply Hnin, Hset. }
    rewrite !firstn_all. unfold upd_graph, node_set. by rewrite Heq.
Qed.

Lemma SetNode_labels_as_set_witness :
  item_liveb (nodes (graph (World_init 2 1))) 3 = false /\
  exists w',
    Serializer_Graph_SetNode 3 [0; 1] 2 blank_node (World_init 2 1)
    = Done (mkNode 3 3, w') /\
    Serializer_Graph_SetNode 3 [1; 0; 1] 3 blank_node (World_init 2 1)
    = Done (mkNode 3 3, w').
Proof.
  split; [reflexivity|].
  apply (SetNode_labels_as_set (World_init 2 1) 3 [0; 1] [1; 0; 1] blank_node
           eq_refl eq_refl).
  - repeat constructor.
  - intros l. rewrite !elem_of_cons, !elem_of_nil. tauto.
Defined.

Ltac split_run :=
  repeat (simpl;
    match goal with
    | |- Fatal = Done _ -> _ => discriminate
    | |- context [match ?fl with [] => _ | _ :: _ => _ end] =>
        is_var fl; destruct fl as [|[] fl]
    | |- context [if bool_decide ?P then _ else _] =>
        destruct (bool_decide P) eqn:?
    | |- context [match ?m !! ?k with Some _ => _ | None => _ end] =>
        destruct (m !! k) eqn:?
    | |- context [if SINGLE_EDGE ?x then _ else _] =>
        destruct (SINGLE_EDGE x) eqn:?
    | |- context [if index_ok ?a ?b then _ else _] =>
        destruct (index_ok a b) eqn:?
    end).

(** X12: whenever the multi-edge routine returns, whatever its matrix
    writes reported, both adjacency bits of the pair are set, the counter
    of the relation type is bumped by one, and the entity stores and the
    label matrices are as they were. *)
Theorem multi_connect_returns_with_adjacency w w' s d id r :
  _OptimizedMultiEdgeFormConnection s d id r w = Done (tt, w') ->
  rg_matrix (adjacency_matrix (graph w')) !! (s, d) = Some true /\
  rg_transposed (adjacency_matrix (graph w')) !! (d, s) = Some true /\
  edge_count (stats (graph w'))
  = alter inc_count (Z.to_nat r) (edge_count (stats (graph w))) /\
  nodes (graph w') = nodes (graph w) /\
  edges (graph w') = edges (graph w) /\
  labels (graph w') = labels (graph w) /\
  node_labels (graph w') = node_labels (graph w).
Proof.
  destruct w as [g h b mv fl]. simpl.
  multi_unfold.
  unfold array_new, array_append, heap_alloc, heap_load, heap_store, heap_free,
    realloc_next_move. prog_unfold.
  split_run.
  all: intros [= <-]; simpl; rewrite ?lookup_insert_eq; done.
Qed.

Lemma multi_connect_returns_with_adjacency_witness :
  let w' := upd_graph (connect_effect 0 1 10 (Z.to_nat 0)) (World_init 0 1) in
  _OptimizedMultiEdgeFormConnection 0 1 10 0 (World_init 0 1) = Done (tt, w') /\
  rg_matrix (adjacency_matrix (graph w')) !! (0, 1) = Some true /\
  rg_transposed (adjacency_matrix (graph w')) !! (1, 0) = Some true.
Proof.
  intros w'.
  assert (Hrun : _OptimizedMultiEdgeFormConnection 0 1 10 0 (World_init 0 1)
                 = Done (tt, w')) by (apply multi_connect_run_absent; reflexivity).
  split; [exact Hrun|].
  destruct (multi_connect_returns_with_adjacency (World_init 0 1) w' 0 1 10 0 Hrun)
    as (Ha & Ht & _).
  split; [exact Ha|exact Ht].
Defined.
